(** * AtaToken and its web3 client: a shallow embedding

    The development follows the three places where the repository has
    logic:

    - [contracts/AtaToken.sol], the claim-once ERC20 token, embedded as
      state-passing code in a state-and-revert monad over the contract
      storage;
    - [src/web3.js], the creation of the wallet provider;
    - the client handlers of the workshop text ([getBalanceAndClaimed],
      [handleStake]), embedded as finite trees of chain requests that are
      run against an arbitrary chain.

    Definitions come first, the theorems about them afterwards. *)

From stdpp Require Import gmap strings list fin_maps fin_sets.
From Stdlib Require Import ZArith Lia.

Local Open Scope Z_scope.

(** * Part I: definitions *)

(** ** Solidity values *)

Module Solidity.

(** [uint256]: an integer in [0, 2^256). *)
Definition UINT256_MAX : Z := 2 ^ 256 - 1.
Definition uint256_range (v : Z) : Prop := 0 ≤ v ≤ UINT256_MAX.
Definition wrap256 (v : Z) : Z := v mod 2 ^ 256.

(** [address]: a 160-bit value. *)
Definition address : Type := dsig (λ n : N, (n < 2 ^ 160)%N).

#[global] Instance address_eq_dec : EqDecision address := _.
#[global] Instance address_countable : Countable address := _.

Definition address_of (n : N) (H : bool_decide (n < 2 ^ 160)%N) : address :=
  n ↾ H.

(** [address(0)] *)
Definition address_zero : address := address_of 0 I.

(** What a reverted call reports: [require(c, reason)] gives
    [Error reason], a failed arithmetic check gives [Panic 0x11]. *)
Inductive Failure : Type :=
| Error (reason : string)
| Panic (code : Z).

Inductive outcome (A : Type) : Type :=
| Ok (a : A)
| Reverted (f : Failure).
Arguments Ok {A} a.
Arguments Reverted {A} f.

(** A mapping reads as zero where nothing was written. *)
Definition mapping_get `{Countable K} (m : gmap K Z) (k : K) : Z :=
  default 0 (m !! k).

End Solidity.
Export Solidity.

(** ** The contract storage and the execution monad *)

Module Storage.

(** The storage of a deployed AtaToken: the two mappings and the supply
    of the ERC20 base contract, then the contract's own [claimants] and
    its immutable [rewardAmount]. *)
Record State : Type := mkState {
  _balances : gmap address Z;
  _allowances : gmap (address * address) Z;
  _totalSupply : Z;
  claimants : gmap address Z;
  rewardAmount : Z
}.

(** Storage before the constructor runs. *)
Definition empty_storage : State :=
  {| _balances := ∅; _allowances := ∅; _totalSupply := 0;
     claimants := ∅; rewardAmount := 0 |}.

(** Code running inside one call: it reads and writes the storage and
    may revert. The storage that comes back with [Reverted] is the
    storage at the point of failure; [AtaToken.transact] below is what
    discards it, as the EVM does. *)
Definition exec (A : Type) : Type := State → outcome A * State.

#[global] Instance exec_ret : MRet exec := λ A a s, (Ok a, s).
#[global] Instance exec_bind : MBind exec := λ A B k m s,
  match m s with
  | (Ok a, s') => k a s'
  | (Reverted f, s') => (Reverted f, s')
  end.

Definition get : exec State := λ s, (Ok s, s).
Definition revert {A} (f : Failure) : exec A := λ s, (Reverted f, s).

Definition require (c : bool) (reason : string) : exec unit :=
  if c then mret tt else revert (Error reason).

(** Checked arithmetic of Solidity 0.8 on [uint256]. *)
Definition checked_add (a b : Z) : exec Z :=
  if a + b <=? UINT256_MAX then mret (a + b) else revert (Panic 17).
Definition checked_mul (a b : Z) : exec Z :=
  if a * b <=? UINT256_MAX then mret (a * b) else revert (Panic 17).
Definition checked_pow (a b : Z) : exec Z :=
  if a ^ b <=? UINT256_MAX then mret (a ^ b) else revert (Panic 17).

Definition set_balance (a : address) (v : Z) : exec unit := λ s,
  (Ok tt, {| _balances := <[a := v]> (_balances s);
             _allowances := _allowances s;
             _totalSupply := _totalSupply s;
             claimants := claimants s;
             rewardAmount := rewardAmount s |}).

Definition set_allowance (owner spender : address) (v : Z) : exec unit := λ s,
  (Ok tt, {| _balances := _balances s;
             _allowances := <[(owner, spender) := v]> (_allowances s);
             _totalSupply := _totalSupply s;
             claimants := claimants s;
             rewardAmount := rewardAmount s |}).

Definition set_totalSupply (v : Z) : exec unit := λ s,
  (Ok tt, {| _balances := _balances s;
             _allowances := _allowances s;
             _totalSupply := v;
             claimants := claimants s;
             rewardAmount := rewardAmount s |}).

Definition set_claimant (a : address) (v : Z) : exec unit := λ s,
  (Ok tt, {| _balances := _balances s;
             _allowances := _allowances s;
             _totalSupply := _totalSupply s;
             claimants := <[a := v]> (claimants s);
             rewardAmount := rewardAmount s |}).

Definition set_rewardAmount (v : Z) : exec unit := λ s,
  (Ok tt, {| _balances := _balances s;
             _allowances := _allowances s;
             _totalSupply := _totalSupply s;
             claimants := claimants s;
             rewardAmount := v |}).

End Storage.
Export Storage.

(** ** The ERC20 base contract *)

Module ERC20.

(** Modelled from the spec: the base contract [ERC20] that AtaToken
    inherits is imported from [@openzeppelin/contracts] and is not among
    the sources. The spec has balances and allowances as unsigned 256-bit
    integers, a mint that adds the amount to the account, and allowances
    changed by approvals only. The guards written here (no zero address,
    checked supply, allowance and balance checks) are the ones of
    OpenZeppelin's 4.x implementation, with the wrap-around of its
    [unchecked] blocks written out. *)
Definition decimals : Z := 18.

(** Modelled from the spec: the three reading functions of the imported
    ERC20 base. *)
Definition totalSupply (s : State) : Z := _totalSupply s.
Definition balanceOf (account : address) (s : State) : Z :=
  mapping_get (_balances s) account.
Definition allowance (owner spender : address) (s : State) : Z :=
  mapping_get (_allowances s) (owner, spender).

(** Modelled from the spec: [_mint] of the imported ERC20 base. *)
Definition _mint (account : address) (amount : Z) : exec unit :=
  _ ← require (bool_decide (account ≠ address_zero))
        "ERC20: mint to the zero address";
  s ← get;
  supply ← checked_add (_totalSupply s) amount;
  _ ← set_totalSupply supply;
  set_balance account (wrap256 (balanceOf account s + amount)).

(** Modelled from the spec: [_transfer] of the imported ERC20 base. *)
Definition _transfer (from to : address) (amount : Z) : exec unit :=
  _ ← require (bool_decide (from ≠ address_zero))
        "ERC20: transfer from the zero address";
  _ ← require (bool_decide (to ≠ address_zero))
        "ERC20: transfer to the zero address";
  s ← get;
  let fromBalance := balanceOf from s in
  _ ← require (amount <=? fromBalance)
        "ERC20: transfer amount exceeds balance";
  _ ← set_balance from (fromBalance - amount);
  s' ← get;
  set_balance to (wrap256 (balanceOf to s' + amount)).

(** Modelled from the spec: [_approve] of the imported ERC20 base. *)
Definition _approve (owner spender : address) (amount : Z) : exec unit :=
  _ ← require (bool_decide (owner ≠ address_zero))
        "ERC20: approve from the zero address";
  _ ← require (bool_decide (spender ≠ address_zero))
        "ERC20: approve to the zero address";
  set_allowance owner spender amount.

(** Modelled from the spec: [_spendAllowance] of the imported ERC20
    base; an allowance of [type(uint256).max] is not consumed. *)
Definition _spendAllowance (owner spender : address) (amount : Z)
  : exec unit :=
  s ← get;
  let currentAllowance := allowance owner spender s in
  if bool_decide (currentAllowance ≠ UINT256_MAX) then
    _ ← require (amount <=? currentAllowance)
          "ERC20: insufficient allowance";
    _approve owner spender (currentAllowance - amount)
  else mret tt.

(** Modelled from the spec: the five state-changing external functions
    of the imported ERC20 base, [transfer], [approve], [transferFrom],
    [increaseAllowance] and [decreaseAllowance]. *)
Definition transfer (msg_sender to : address) (amount : Z) : exec bool :=
  _ ← _transfer msg_sender to amount;
  mret true.

Definition approve (msg_sender spender : address) (amount : Z)
  : exec bool :=
  _ ← _approve msg_sender spender amount;
  mret true.

Definition transferFrom (msg_sender from to : address) (amount : Z)
  : exec bool :=
  _ ← _spendAllowance from msg_sender amount;
  _ ← _transfer from to amount;
  mret true.

Definition increaseAllowance (msg_sender spender : address)
  (addedValue : Z) : exec bool :=
  s ← get;
  v ← checked_add (allowance msg_sender spender s) addedValue;
  _ ← _approve msg_sender spender v;
  mret true.

Definition decreaseAllowance (msg_sender spender : address)
  (subtractedValue : Z) : exec bool :=
  s ← get;
  let currentAllowance := allowance msg_sender spender s in
  _ ← require (subtractedValue <=? currentAllowance)
        "ERC20: decreased allowance below zero";
  _ ← _approve msg_sender spender (currentAllowance - subtractedValue);
  mret true.

End ERC20.

(** ** contracts/AtaToken.sol *)

Module AtaToken.
Import ERC20.

Definition CLAIM_STATUS_PENDING : Z := 0.
Definition CLAIM_STATUS_CLAIMED : Z := 1.

(** [claimants[_account]], the claim status of an account. *)
Definition claim_status (_account : address) (s : State) : Z :=
  mapping_get (claimants s) _account.

(** [constructor() ERC20("AtaToken", "ATA")]: the base constructor keeps
    the two strings as the name and the symbol of the token. *)
Definition name : string := "AtaToken".
Definition symbol : string := "ATA".

Definition constructor (msg_sender : address) : exec unit :=
  unit_ ← checked_pow 10 decimals;
  initial ← checked_mul 1000000 unit_;
  _ ← _mint msg_sender initial;
  unit' ← checked_pow 10 decimals;
  reward ← checked_mul 1000 unit';
  set_rewardAmount reward.

(** [function hasClaimed(address _account) public view returns (bool)] *)
Definition hasClaimed (_account : address) (s : State) : bool :=
  claim_status _account s =? CLAIM_STATUS_CLAIMED.

(** [function claim() public] *)
Definition claim (msg_sender : address) : exec unit :=
  s ← get;
  _ ← require (negb (hasClaimed msg_sender s)) "Already claimed";
  _ ← _mint msg_sender (rewardAmount s);
  set_claimant msg_sender CLAIM_STATUS_CLAIMED.

(** The spec's name for the failure of the guard of [claim]. *)
Definition AlreadyClaimed : Failure := Error "Already claimed".

(** *** Deployment and transactions *)

(** The external functions of the deployed contract: the two of
    AtaToken, the getter of its public immutable, and the ones it
    inherits. *)
Inductive Call : Type :=
| call_claim
| call_hasClaimed (_account : address)
| call_rewardAmount
| call_name
| call_symbol
| call_decimals
| call_totalSupply
| call_balanceOf (account : address)
| call_allowance (owner spender : address)
| call_transfer (to : address) (amount : Z)
| call_approve (spender : address) (amount : Z)
| call_transferFrom (from to : address) (amount : Z)
| call_increaseAllowance (spender : address) (addedValue : Z)
| call_decreaseAllowance (spender : address) (subtractedValue : Z).

#[global] Instance Call_eq_dec : EqDecision Call.
Proof. solve_decision. Defined.

Inductive ReturnData : Type :=
| ret_none
| ret_bool (b : bool)
| ret_uint (v : Z)
| ret_string (text : string).

(** The [uint256] arguments of a call are in range. *)
Definition call_args_ok (c : Call) : Prop :=
  match c with
  | call_transfer _ v | call_approve _ v | call_transferFrom _ _ v
  | call_increaseAllowance _ v | call_decreaseAllowance _ v =>
      uint256_range v
  | _ => True
  end.

Definition view {A} (f : State → A) : exec A := λ s, (Ok (f s), s).

Definition dispatch (c : Call) (msg_sender : address) : exec ReturnData :=
  match c with
  | call_claim => _ ← claim msg_sender; mret ret_none
  | call_hasClaimed a => b ← view (hasClaimed a); mret (ret_bool b)
  | call_rewardAmount => v ← view rewardAmount; mret (ret_uint v)
  | call_name => mret (ret_string name)
  | call_symbol => mret (ret_string symbol)
  | call_decimals => mret (ret_uint decimals)
  | call_totalSupply => v ← view totalSupply; mret (ret_uint v)
  | call_balanceOf a => v ← view (balanceOf a); mret (ret_uint v)
  | call_allowance o sp => v ← view (allowance o sp); mret (ret_uint v)
  | call_transfer to v => b ← transfer msg_sender to v; mret (ret_bool b)
  | call_approve sp v => b ← approve msg_sender sp v; mret (ret_bool b)
  | call_transferFrom from to v =>
      b ← transferFrom msg_sender from to v; mret (ret_bool b)
  | call_increaseAllowance sp v =>
      b ← increaseAllowance msg_sender sp v; mret (ret_bool b)
  | call_decreaseAllowance sp v =>
      b ← decreaseAllowance msg_sender sp v; mret (ret_bool b)
  end.

(** One call to the contract as the chain sees it: what a reverted call
    wrote is discarded. *)
Definition transact {A} (code : exec A) (s : State) : outcome A * State :=
  match code s with
  | (Ok a, s') => (Ok a, s')
  | (Reverted f, _) => (Reverted f, s)
  end.

(** Deployment by [msg_sender]: the constructor runs on empty storage;
    if it reverts there is no contract. *)
Definition deploy (msg_sender : address) : option State :=
  match constructor msg_sender empty_storage with
  | (Ok _, s) => Some s
  | (Reverted _, _) => None
  end.

Definition succeeded {A} (o : outcome A) : bool :=
  match o with Ok _ => true | Reverted _ => false end.

(** A call that was made, with its sender and whether it succeeded. *)
Record Tx : Type := mkTx {
  tx_sender : address;
  tx_call : Call;
  tx_ok : bool
}.

#[global] Instance Tx_eq_dec : EqDecision Tx.
Proof. solve_decision. Defined.

(** [run s txs s']: starting from [s], the calls [txs], made in that
    order, each with the result recorded, leave the contract in [s']. *)
Inductive run : State → list Tx → State → Prop :=
| run_nil s : run s [] s
| run_snoc s txs s' msg_sender c o s'' :
    run s txs s' →
    call_args_ok c →
    transact (dispatch c msg_sender) s' = (o, s'') →
    run s (txs ++ [mkTx msg_sender c (succeeded o)]) s''.

(** [history s txs]: the contract was deployed and [txs] are the calls
    made since, leaving it in [s]. *)
Definition history (s : State) (txs : list Tx) : Prop :=
  ∃ deployer s0, deploy deployer = Some s0 ∧ run s0 txs s.

Definition reachable (s : State) : Prop := ∃ txs, history s txs.

(** [msg_sender] has a successful [claim] among [txs]. *)
Definition claimed_in (msg_sender : address) (txs : list Tx) : Prop :=
  mkTx msg_sender call_claim true ∈ txs.

End AtaToken.

(** ** The storage after each successful operation *)

Module Effects.
Import ERC20 AtaToken.

(** After [_mint account amount]. *)
Definition minted (account : address) (amount : Z) (s : State) : State :=
  {| _balances :=
       <[account := wrap256 (balanceOf account s + amount)]> (_balances s);
     _allowances := _allowances s;
     _totalSupply := _totalSupply s + amount;
     claimants := claimants s;
     rewardAmount := rewardAmount s |}.

(** After [claim()] sent by [msg_sender]. *)
Definition claimed (msg_sender : address) (s : State) : State :=
  {| _balances :=
       <[msg_sender := wrap256 (balanceOf msg_sender s + rewardAmount s)]>
         (_balances s);
     _allowances := _allowances s;
     _totalSupply := _totalSupply s + rewardAmount s;
     claimants := <[msg_sender := CLAIM_STATUS_CLAIMED]> (claimants s);
     rewardAmount := rewardAmount s |}.

(** After [_transfer from to amount]. *)
Definition transferred (from to : address) (amount : Z) (s : State)
  : State :=
  let debited := <[from := balanceOf from s - amount]> (_balances s) in
  {| _balances :=
       <[to := wrap256 (mapping_get debited to + amount)]> debited;
     _allowances := _allowances s;
     _totalSupply := _totalSupply s;
     claimants := claimants s;
     rewardAmount := rewardAmount s |}.

(** After [_approve owner spender amount]. *)
Definition approved (owner spender : address) (amount : Z) (s : State)
  : State :=
  {| _balances := _balances s;
     _allowances := <[(owner, spender) := amount]> (_allowances s);
     _totalSupply := _totalSupply s;
     claimants := claimants s;
     rewardAmount := rewardAmount s |}.

(** After the constructor, sent by [msg_sender]. *)
Definition deployed (msg_sender : address) : State :=
  {| _balances := {[msg_sender := 1000000 * 10 ^ decimals]};
     _allowances := ∅;
     _totalSupply := 1000000 * 10 ^ decimals;
     claimants := ∅;
     rewardAmount := 1000 * 10 ^ decimals |}.

(** What a call other than [claim] keeps, whether it returns or reverts:
    the claim statuses and the reward. *)
Definition same_claims (s s' : State) : Prop :=
  claimants s' = claimants s ∧ rewardAmount s' = rewardAmount s.

End Effects.

(** ** The invariant of the deployed contract *)

Module Invariant.
Import ERC20 AtaToken.

(** The sum of the values a mapping holds. *)
Definition sum_values `{Countable K} (m : gmap K Z) : Z :=
  map_fold (λ _ v acc, v + acc) 0 m.

(** What every state of a deployed AtaToken satisfies: the reward is the
    one the constructor computed, [claimants] holds nothing but
    CLAIMED, the supply is the initial mint plus one reward per
    claimant, and the balances are non-negative and add up to the
    supply. *)
Record invariant (s : State) : Prop := mkInvariant {
  inv_reward : rewardAmount s = 1000 * 10 ^ decimals;
  inv_status : ∀ a v, claimants s !! a = Some v → v = CLAIM_STATUS_CLAIMED;
  inv_supply :
    _totalSupply s
    = 1000000 * 10 ^ decimals
      + rewardAmount s * Z.of_nat (size (claimants s));
  inv_balances : ∀ a v, _balances s !! a = Some v → 0 ≤ v;
  inv_sum : sum_values (_balances s) = _totalSupply s
}.

(** The number of successful [claim] calls of [msg_sender] in [txs]. *)
Definition claims_by (msg_sender : address) (txs : list Tx) : nat :=
  length (filter (λ t, t = mkTx msg_sender call_claim true) txs).

End Invariant.

(** ** JavaScript values *)

Module Js.

(** The values the client code tests and throws. Numbers are kept to
    the integers and [NaN]; objects are known by a reference. *)
Inductive value : Type :=
| undefined
| null
| boolean (b : bool)
| number (n : Z)
| NaN
| str (s : string)
| object (ref : nat).

(** [ToBoolean]: what an [if] makes of a value. *)
Definition ToBoolean (v : value) : bool :=
  match v with
  | undefined | null | NaN => false
  | boolean b => b
  | number n => negb (n =? 0)
  | str s => negb (String.eqb s EmptyString)
  | object _ => true
  end.

(** How the evaluation of an expression ends. *)
Inductive completion (A : Type) : Type :=
| Normal (a : A)
| Throw (e : value).
Arguments Normal {A} a.
Arguments Throw {A} e.

End Js.

(** ** src/web3.js *)

Module Web3.
Import Js.

(** The global object, as far as the module reads it: [window.ethereum]
    is [undefined] unless a wallet injected it. *)
Record Window : Type := mkWindow { ethereum : value }.

Section Provider.
(** [new ethers.providers.Web3Provider(x)]: the constructor belongs to
    the ethers library; it yields a provider object or throws. *)
Variable Web3Provider : value → completion value.

(** [function getWeb3Provider()] *)
Definition getWeb3Provider (window : Window) : completion value :=
  if ToBoolean (ethereum window)
  then Web3Provider (ethereum window)
  else Normal null.

(** [export const provider = getWeb3Provider();] *)
Definition provider (window : Window) : completion value :=
  getWeb3Provider window.
End Provider.

End Web3.

(** ** The client handlers of the workshop text *)

Module Client.
Import Js.

(** An account is an address string. *)
Definition Account : Type := string.

(** What a contract object is connected to: a provider (read-only), or
    the signer [provider.getSigner(account)]. *)
Inductive Connection : Type :=
| Provider (provider : nat)
| Signer (provider : nat) (account : option Account).

Definition getSigner (provider : nat) (account : option Account)
  : Connection := Signer provider account.

Definition read_only (c : Connection) : bool :=
  match c with Provider _ => true | Signer _ _ => false end.

(** The two contract objects [src/web3.js] exports, and a contract
    object after [.connect(...)]. *)
Inductive ContractName : Type := DUMMY_TOKEN | STAKING_CONTRACT.

Record Contract : Type := connect {
  target : ContractName;
  runner : Connection
}.

Record TransactionResponse : Type := mkTransaction { hash : string }.
Record TransactionReceipt : Type := mkReceipt { blockNumber : Z }.

(** The remote calls the handlers make, each with the type of what its
    promise resolves to. [balanceOf], [hasClaimed] and [allowance] are
    reads; [approve] and [stake] submit a transaction; [wait] is
    [tx.wait()], the confirmation of a submitted transaction. *)
Inductive Request : Type → Type :=
| balanceOf (c : Contract) (account : Account) : Request Z
| hasClaimed (c : Contract) (account : Account) : Request bool
| allowance (c : Contract) (owner spender : Account) : Request Z
| approve (c : Contract) (spender : Account) (amount : Z)
    : Request TransactionResponse
| stake (c : Contract) (amount : Z) (gasLimit : Z)
    : Request TransactionResponse
| wait (tx : TransactionResponse) : Request TransactionReceipt.

(** How a promise settles. *)
Inductive Settlement (X : Type) : Type :=
| Fulfilled (x : X)
| Rejected (e : value).
Arguments Fulfilled {X} x.
Arguments Rejected {X} e.

(** An [async] function body: it returns, throws, awaits one call, or
    awaits [Promise.all] of two calls. *)
Inductive async (R : Type) : Type :=
| Return (r : R)
| Raise (e : value)
| Await {X : Type} (q : Request X) (k : X → async R)
| AwaitAll {X Y : Type} (p : Request X) (q : Request Y)
    (k : X * Y → async R).
Arguments Return {R} r.
Arguments Raise {R} e.
Arguments Await {R X} q k.
Arguments AwaitAll {R X Y} p q k.

(** What can be observed of a run: a call is sent, a promise settles. *)
Inductive Event : Type :=
| Sent {X : Type} (q : Request X)
| Settled {X : Type} (q : Request X) (r : Settlement X).

(** The wallet and the chain: how a call that is in flight settles,
    given all that happened so far, and which of two calls in flight
    settles first. *)
Record World : Type := mkWorld {
  respond : ∀ X : Type, Request X → list Event → Settlement X;
  first_wins : list Event → bool
}.

(** [run w p past]: the events of [p] after [past], and its completion.
    [Await] sends the call and suspends until it settles; a rejection is
    thrown. [AwaitAll] sends both calls before it waits for either; the
    two settle in the order the world chooses; the first rejection is
    thrown at once, and two results are handed on in the order of the
    calls, whichever settled first. *)
Fixpoint run {R : Type} (w : World) (p : async R) (past : list Event)
  : list Event * completion R :=
  match p with
  | Return r => (past, Normal r)
  | Raise e => (past, Throw e)
  | Await q k =>
      let sent := past ++ [Sent q] in
      match respond w _ q sent with
      | Fulfilled x => run w (k x) (sent ++ [Settled q (Fulfilled x)])
      | Rejected e => (sent ++ [Settled q (Rejected e)], Throw e)
      end
  | AwaitAll p q k =>
      let sent := past ++ [Sent p; Sent q] in
      if first_wins w sent then
        match respond w _ p sent with
        | Rejected e => (sent ++ [Settled p (Rejected e)], Throw e)
        | Fulfilled x =>
            let sent' := sent ++ [Settled p (Fulfilled x)] in
            match respond w _ q sent' with
            | Rejected e => (sent' ++ [Settled q (Rejected e)], Throw e)
            | Fulfilled y =>
                run w (k (x, y)) (sent' ++ [Settled q (Fulfilled y)])
            end
        end
      else
        match respond w _ q sent with
        | Rejected e => (sent ++ [Settled q (Rejected e)], Throw e)
        | Fulfilled y =>
            let sent' := sent ++ [Settled q (Fulfilled y)] in
            match respond w _ p sent' with
            | Rejected e => (sent' ++ [Settled p (Rejected e)], Throw e)
            | Fulfilled x =>
                run w (k (x, y)) (sent' ++ [Settled p (Fulfilled x)])
            end
        end
  end.

Section Handlers.
(** [ethers.utils.formatEther] and [ethers.utils.parseEther] belong to
    the ethers library: base units to a decimal string, and a decimal
    string to base units, or an exception. [STAKING_ADDRESS] is
    [STAKING_CONTRACT.address], read from the environment. *)
Variable formatEther : Z → string.
Variable parseEther : string → completion Z.
Variable STAKING_ADDRESS : Account.

(** [const getBalanceAndClaimed = async (account, provider) => ...] *)
Definition getBalanceAndClaimed (account : Account) (provider : nat)
  : async (string * bool) :=
  let dummyToken := connect DUMMY_TOKEN (Provider provider) in
  AwaitAll (balanceOf dummyToken account) (hasClaimed dummyToken account)
    (λ '(balance, claimed), Return (formatEther balance, claimed)).

(** The component [Staking] holds [account], [provider] and the text
    [stake] of the form. *)
Variable account : Account.
Variable provider : nat.
Variable stake_input : string.

(** The first listing of [handleStake], which has no allowance check:
    [staking.stake(parseEther(stake), { gasLimit: 1_000_000 })] and
    [tx.wait()]. *)
Definition submitStake : async unit :=
  let signer := getSigner provider (Some account) in
  let staking := connect STAKING_CONTRACT signer in
  match parseEther stake_input with
  | Throw e => Raise e
  | Normal amount =>
      Await (stake staking amount 1000000) (λ tx,
      Await (wait tx) (λ _,
      Return tt))
  end.

(** What the second listing of [handleStake] leaves out at its end
    ([// ...]): the rest of the handler, whatever it is, which may use
    the [amount] and the [allowance] the listing has computed. *)
Variable tail : Z → Z → async unit.

(** [const handleStake = async event => ...], the listing with the
    allowance check, up to its elided end. *)
Definition handleStake : async unit :=
  let signer := getSigner provider (Some account) in
  match parseEther stake_input with
  | Throw e => Raise e
  | Normal amount =>
      let dummyToken := connect DUMMY_TOKEN signer in
      Await (allowance dummyToken account STAKING_ADDRESS) (λ allowance_,
      if allowance_ <? amount then
        Await (approve dummyToken STAKING_ADDRESS amount) (λ tx,
        Await (wait tx) (λ _,
        tail amount allowance_))
      else tail amount allowance_)
  end.
End Handlers.

(** *** Reading a trace *)

(** The approvals that were submitted, as (spender, amount). *)
Definition is_approve (e : Event) : option (Account * Z) :=
  match e with
  | Sent (approve _ spender amount) => Some (spender, amount)
  | _ => None
  end.
Definition approvals (tr : list Event) : list (Account * Z) :=
  omap is_approve tr.

Definition is_stake (e : Event) : bool :=
  match e with
  | Sent (stake _ _ _) => true
  | _ => false
  end.

(** A transaction was submitted (as opposed to a read). *)
Definition is_submission (e : Event) : bool :=
  match e with
  | Sent (approve _ _ _) | Sent (stake _ _ _) => true
  | _ => false
  end.

(** The events before the first stake transaction is submitted, and
    whether one is submitted at all. *)
Fixpoint before_stake (tr : list Event) : list Event :=
  match tr with
  | [] => []
  | e :: tr' => if is_stake e then [] else e :: before_stake tr'
  end.
Definition stake_submitted (tr : list Event) : bool :=
  existsb is_stake tr.

Definition is_settlement (e : Event) : bool :=
  match e with
  | Settled _ _ => true
  | Sent _ => false
  end.

(** How the reads of a trace settled, per kind of read. *)
Definition balance_result (e : Event) : option (Settlement Z) :=
  match e with
  | Settled (balanceOf _ _) r => Some r
  | _ => None
  end.
Definition claimed_result (e : Event) : option (Settlement bool) :=
  match e with
  | Settled (hasClaimed _ _) r => Some r
  | _ => None
  end.
Definition allowance_result (e : Event) : option (Settlement Z) :=
  match e with
  | Settled (allowance _ _ _) r => Some r
  | _ => None
  end.

End Client.

(** ** Concrete accounts and states *)

Module Examples.
Import ERC20 AtaToken.

Definition alice : address := address_of 1 I.
Definition bob : address := address_of 2 I.

(** The contract as [alice] deployed it, and after a claim of [bob]. *)
Definition s_deployed : State := snd (constructor alice empty_storage).
Definition s_bob_claimed : State := snd (transact (claim bob) s_deployed).

(** Then [bob] claims again, in vain, and [alice] pays him 5 units. *)
Definition later_calls : list Tx :=
  [mkTx bob call_claim false; mkTx alice (call_transfer bob 5) true].
Definition s_bob_paid : State :=
  snd (transact (dispatch (call_transfer bob 5) alice) s_bob_claimed).

(** A wallet without an injected provider, and a constructor that would
    throw if it were called. *)
Definition bare_window : Web3.Window := Web3.mkWindow Js.undefined.
Definition throwing_constructor (x : Js.value) : Js.completion Js.value :=
  Js.Throw (Js.str "missing provider").

(** A chain on which every call goes through: reads give the given
    balance, status and allowance, and of two calls in flight the one
    chosen by [first] settles first. *)
Definition calm_world (balance : Z) (status : bool) (allowed : Z)
  (first : bool) : Client.World :=
  {| Client.respond := λ X q _,
       match q in Client.Request X return Client.Settlement X with
       | Client.balanceOf _ _ => Client.Fulfilled balance
       | Client.hasClaimed _ _ => Client.Fulfilled status
       | Client.allowance _ _ _ => Client.Fulfilled allowed
       | Client.approve _ _ _ =>
           Client.Fulfilled (Client.mkTransaction "0xa")
       | Client.stake _ _ _ =>
           Client.Fulfilled (Client.mkTransaction "0xb")
       | Client.wait _ => Client.Fulfilled (Client.mkReceipt 1)
       end;
     Client.first_wins := λ _, first |}.

(** Stand-ins for the two conversions of the ethers library, right on
    the one input the examples use. *)
Definition formatEther_example (v : Z) : string :=
  if v =? 10 ^ 21 then "1000.0" else "0.0".
Definition parseEther_example (text : string) : Js.completion Z :=
  if String.eqb text "1.0" then Js.Normal (10 ^ 18)
  else Js.Throw (Js.str "invalid decimal value").

End Examples.

(** ** Counting the claims of a history *)

Module Accounting.
Import AtaToken.

(** The number of successful [claim] calls in [txs], whoever sent them. *)
Definition successful_claims (txs : list Tx) : nat :=
  length (filter (λ t, tx_call t = call_claim ∧ tx_ok t = true) txs).

(** Two calls one after the other, each a transaction of its own: the
    two results and the final storage. *)
Definition two_calls {A B} (first : exec A) (second : exec B) (s : State)
  : outcome A * outcome B * State :=
  let '(o1, s1) := transact first s in
  let '(o2, s2) := transact second s1 in
  (o1, o2, s2).

End Accounting.

(** ** The other handlers of the workshop text *)

Module Dapp.
Import Js Client.

(** The asset description that [wallet_watchAsset] takes. *)
Record Asset : Type := mkAsset {
  asset_type : string;
  asset_address : string;
  asset_symbol : string;
  asset_decimals : Z;
  asset_image : string
}.

(** The calls of these handlers, each with the type of what its promise
    resolves to: the two requests to the wallet object
    ([window.ethereum.request] with the method [eth_requestAccounts] or
    [wallet_watchAsset]), the transactions [claim] and [claimReward],
    [tx.wait()], and the three reads of the staking contract. *)
Inductive Op : Type → Type :=
| eth_requestAccounts (wallet : nat) : Op (list Account)
| wallet_watchAsset (wallet : nat) (asset : Asset) : Op bool
| claim (c : Contract) : Op TransactionResponse
| claimReward (c : Contract) (gasLimit : Z) : Op TransactionResponse
| wait (tx : TransactionResponse) : Op TransactionReceipt
| stakedOf (c : Contract) (account : Account) : Op Z
| rewardOf (c : Contract) (account : Account) : Op Z
| totalStaked (c : Contract) : Op Z.

(** An [async] function body with [try]/[catch] and [Promise.all] of
    three calls. *)
Inductive script (R : Type) : Type :=
| Done (r : R)
| Fail (e : value)
| Call {X : Type} (op : Op X) (k : X → script R)
| CallAll3 {X Y Z : Type} (a : Op X) (b : Op Y) (c : Op Z)
    (k : X * Y * Z → script R)
| TryCatch (body : script R) (handler : value → script R).
Arguments Done {R} r.
Arguments Fail {R} e.
Arguments Call {R X} op k.
Arguments CallAll3 {R X Y Z} a b c k.
Arguments TryCatch {R} body handler.

Inductive Event : Type :=
| Asked {X : Type} (op : Op X)
| Answered {X : Type} (op : Op X) (r : Settlement X).

(** The six orders in which three calls in flight can settle. *)
Inductive Order : Type := o123 | o132 | o213 | o231 | o312 | o321.

Record World : Type := mkWorld {
  answer : ∀ X : Type, Op X → list Event → Settlement X;
  order : list Event → Order
}.

(** One call in flight settles: the event is recorded. *)
Definition settle {X : Type} (w : World) (op : Op X) (past : list Event)
  : list Event * Settlement X :=
  let r := answer w X op past in (past ++ [Answered op r], r).

(** Go on with a fulfilled value, throw a rejection. *)
Definition and_then {X R : Type} (settled : list Event * Settlement X)
  (k : list Event → X → list Event * completion R)
  : list Event * completion R :=
  match settled with
  | (past, Fulfilled x) => k past x
  | (past, Rejected e) => (past, Throw e)
  end.

(** [play w p past]: the events of [p] after [past], and its completion.
    [Call] is an [await] of one call. [CallAll3] sends the three calls,
    which then settle in the order the world chooses; the first rejection
    is thrown at once, three results are handed on in the order of the
    calls. [TryCatch] runs the handler on what the body throws. *)
Fixpoint play {R : Type} (w : World) (p : script R) (past : list Event)
  : list Event * completion R :=
  match p with
  | Done r => (past, Normal r)
  | Fail e => (past, Throw e)
  | Call op k =>
      and_then (settle w op (past ++ [Asked op])) (λ past' x,
      play w (k x) past')
  | CallAll3 a b c k =>
      let sent := past ++ [Asked a; Asked b; Asked c] in
      match order w sent with
      | o123 =>
          and_then (settle w a sent) (λ t1 x,
          and_then (settle w b t1) (λ t2 y,
          and_then (settle w c t2) (λ t3 z, play w (k (x, y, z)) t3)))
      | o132 =>
          and_then (settle w a sent) (λ t1 x,
          and_then (settle w c t1) (λ t2 z,
          and_then (settle w b t2) (λ t3 y, play w (k (x, y, z)) t3)))
      | o213 =>
          and_then (settle w b sent) (λ t1 y,
          and_then (settle w a t1) (λ t2 x,
          and_then (settle w c t2) (λ t3 z, play w (k (x, y, z)) t3)))
      | o231 =>
          and_then (settle w b sent) (λ t1 y,
          and_then (settle w c t1) (λ t2 z,
          and_then (settle w a t2) (λ t3 x, play w (k (x, y, z)) t3)))
      | o312 =>
          and_then (settle w c sent) (λ t1 z,
          and_then (settle w a t1) (λ t2 x,
          and_then (settle w b t2) (λ t3 y, play w (k (x, y, z)) t3)))
      | o321 =>
          and_then (settle w c sent) (λ t1 z,
          and_then (settle w b t1) (λ t2 y,
          and_then (settle w a t2) (λ t3 x, play w (k (x, y, z)) t3)))
      end
  | TryCatch body handler =>
      match play w body past with
      | (past', Normal r) => (past', Normal r)
      | (past', Throw e) => play w (handler e) past'
      end
  end.

(** Calling [window.ethereum.request] when [window.ethereum] is truthy
    but no object: there is no such method, a [TypeError] is thrown. *)
Definition TypeError : value := str "TypeError".

Section Handlers.
Variable formatEther : Z → string.
Variable DUMMY_TOKEN_ADDRESS : string.
Variable window : Web3.Window.

(** [const requestAccounts = async () => ...]; [const [account] = ...]
    takes the first element, [undefined] of an empty array. *)
Definition requestAccounts : script value :=
  if negb (ToBoolean (Web3.ethereum window)) then Done null
  else
    match Web3.ethereum window with
    | object wallet =>
        Call (eth_requestAccounts wallet) (λ accounts,
        Done (match accounts with
              | account :: _ => str account
              | [] => undefined
              end))
    | _ => Fail TypeError
    end.

(** [const addDummyTokenToMetaMask = async () => ...] *)
Definition addDummyTokenToMetaMask : script bool :=
  if negb (ToBoolean (Web3.ethereum window)) then Done false
  else
    TryCatch
      (match Web3.ethereum window with
       | object wallet =>
           Call (wallet_watchAsset wallet
                   {| asset_type := "ERC20";
                      asset_address := DUMMY_TOKEN_ADDRESS;
                      asset_symbol := "DT";
                      asset_decimals := 18;
                      asset_image :=
                        "https://ata-token.netlify.app/opn.png" |})
             (λ added, Done added)
       | _ => Fail TypeError
       end)
      (λ error, Done false).

(** The object [getStakingViews] returns. *)
Record StakingViews : Type := mkStakingViews {
  staked : string;
  reward : string;
  views_totalStaked : string
}.

(** [const getStakingViews = async (account, provider) => ...] *)
Definition getStakingViews (account : Account) (provider : nat)
  : script StakingViews :=
  let signer := getSigner provider (Some account) in
  let staking := connect STAKING_CONTRACT signer in
  CallAll3 (stakedOf staking account) (rewardOf staking account)
    (totalStaked staking)
    (λ '(staked, reward, totalStaked_),
     Done {| staked := formatEther staked;
             reward := formatEther reward;
             views_totalStaked := formatEther totalStaked_ |}).

(** [const handleClaimReward = async () => ...] *)
Definition handleClaimReward (account : Account) (provider : nat)
  : script unit :=
  let signer := getSigner provider (Some account) in
  let staking := connect STAKING_CONTRACT signer in
  Call (claimReward staking 1000000) (λ tx,
  Call (wait tx) (λ _,
  Done tt)).
End Handlers.

(** The component [DummyToken]. *)
Module DummyToken.

(** [const claim = async () => ...]: the signer is
    [provider.getSigner()], of no stated account. *)
Definition claim (provider : nat) : script unit :=
  let signer := getSigner provider None in
  let dummyToken := connect DUMMY_TOKEN signer in
  Call (claim dummyToken) (λ tx,
  Call (wait tx) (λ _,
  Done tt)).

End DummyToken.

(** *** Reading a trace *)

Definition is_asked (e : Event) : bool :=
  match e with Asked _ => true | Answered _ _ => false end.

(** The calls that were sent, in order. *)
Definition asked (tr : list Event) : list Event := filter is_asked tr.

(** A transaction was submitted. *)
Definition is_transaction (e : Event) : bool :=
  match e with
  | Asked (claim _) | Asked (claimReward _ _) => true
  | _ => false
  end.

(** How the three reads of the staking contract settled. *)
Definition staked_result (e : Event) : option (Settlement Z) :=
  match e with
  | Answered (stakedOf _ _) r => Some r
  | _ => None
  end.
Definition reward_result (e : Event) : option (Settlement Z) :=
  match e with
  | Answered (rewardOf _ _) r => Some r
  | _ => None
  end.
Definition totalStaked_result (e : Event) : option (Settlement Z) :=
  match e with
  | Answered (totalStaked _) r => Some r
  | _ => None
  end.

(** The rejection an event carries, if it is one. *)
Definition rejection (e : Event) : option value :=
  match e with
  | Answered _ (Rejected e) => Some e
  | _ => None
  end.

(** The event is the confirmation of a transaction: [tx.wait()]
    fulfilled. *)
Definition is_confirmation (e : Event) : bool :=
  match e with
  | Answered (wait _) (Fulfilled _) => true
  | _ => false
  end.

(** A trace ends with a confirmation; a trace ends with the rejection
    [e]. *)
Definition ends_confirmed (tr : list Event) : bool :=
  match last tr with
  | Some e => is_confirmation e
  | None => false
  end.
Definition ends_rejected (tr : list Event) : option value :=
  match last tr with
  | Some e => rejection e
  | None => None
  end.

End Dapp.

(** ** Reading the end of a trace of [handleStake] *)

Module StakeTrace.
Import Js Client.

Definition rejection (e : Event) : option value :=
  match e with
  | Settled _ (Rejected e) => Some e
  | _ => None
  end.

Definition is_confirmation (e : Event) : bool :=
  match e with
  | Settled (wait _) (Fulfilled _) => true
  | _ => false
  end.

Definition ends_confirmed (tr : list Event) : bool :=
  match last tr with
  | Some e => is_confirmation e
  | None => false
  end.
Definition ends_rejected (tr : list Event) : option value :=
  match last tr with
  | Some e => rejection e
  | None => None
  end.

(** The stake transactions that were submitted, as (amount, gas limit). *)
Definition stake_request (e : Event) : option (Z * Z) :=
  match e with
  | Sent (stake _ amount gasLimit) => Some (amount, gasLimit)
  | _ => None
  end.
Definition stakes (tr : list Event) : list (Z * Z) := omap stake_request tr.

End StakeTrace.

(** ** More concrete states and worlds *)

Module MoreExamples.
Import AtaToken Examples.

(** The contract of the examples after a claim of [alice], its
    deployer. *)
Definition s_alice_claimed : State := snd (transact (claim alice) s_deployed).

(** A browser with a wallet object, and a wallet and chain on which
    every call goes through: the wallet has the given accounts and
    accepts the asset, the three reads of the staking contract give the
    given numbers, and three calls in flight settle in the given order. *)
Definition wallet_window : Web3.Window := Web3.mkWindow (Js.object 1).

Definition calm_dapp (accounts : list Client.Account) (staked reward total : Z)
  (settling : Dapp.Order) : Dapp.World :=
  {| Dapp.answer := λ X op _,
       match op in Dapp.Op X return Client.Settlement X with
       | Dapp.eth_requestAccounts _ => Client.Fulfilled accounts
       | Dapp.wallet_watchAsset _ _ => Client.Fulfilled true
       | Dapp.claim _ => Client.Fulfilled (Client.mkTransaction "0xc")
       | Dapp.claimReward _ _ =>
           Client.Fulfilled (Client.mkTransaction "0xd")
       | Dapp.wait _ => Client.Fulfilled (Client.mkReceipt 2)
       | Dapp.stakedOf _ _ => Client.Fulfilled staked
       | Dapp.rewardOf _ _ => Client.Fulfilled reward
       | Dapp.totalStaked _ => Client.Fulfilled total
       end;
     Dapp.order := λ _, settling |}.

(** A wallet whose user declines everything. *)
Definition declining_dapp : Dapp.World :=
  {| Dapp.answer := λ X _ _, Client.Rejected (Js.str "User rejected");
     Dapp.order := λ _, Dapp.o123 |}.

Definition declining_world : Client.World :=
  {| Client.respond := λ X _ _, Client.Rejected (Js.str "User rejected");
     Client.first_wins := λ _, true |}.

(** A stand-in for [formatEther], the decimal digits of whole tokens
    being out of scope: it tells three values apart. *)
Definition formatEther_three (v : Z) : string :=
  if v =? 1 then "a" else if v =? 2 then "b" else "c".

End MoreExamples.

(** * Part II: theorems *)

(** ** Mappings *)

Module MappingFacts.
Import Invariant.

Section Sum.
Context `{Countable K}.
Implicit Types m : gmap K Z.

Lemma sum_values_empty : sum_values (∅ : gmap K Z) = 0.
Proof. unfold sum_values. apply map_fold_empty. Qed.

Lemma sum_values_insert_fresh m k v :
  m !! k = None → sum_values (<[k := v]> m) = v + sum_values m.
Proof.
  intros Hk. unfold sum_values.
  rewrite map_fold_insert_L; [done | intros; lia | done].
Qed.

Lemma sum_values_delete m k :
  sum_values (delete k m) = sum_values m - mapping_get m k.
Proof.
  unfold mapping_get. destruct (m !! k) as [v|] eqn:Hk; simpl.
  - rewrite <- (insert_delete_id m k v) at 2 by done.
    rewrite sum_values_insert_fresh by apply lookup_delete_eq. lia.
  - rewrite delete_id by done. lia.
Qed.

Lemma sum_values_insert m k v :
  sum_values (<[k := v]> m) = sum_values m - mapping_get m k + v.
Proof.
  rewrite <- insert_delete_eq.
  rewrite sum_values_insert_fresh by apply lookup_delete_eq.
  rewrite sum_values_delete. lia.
Qed.

Lemma sum_values_nonneg m :
  (∀ k v, m !! k = Some v → 0 ≤ v) → 0 ≤ sum_values m.
Proof.
  induction m as [|k v m Hk IH] using map_ind; intros Hpos.
  - by rewrite sum_values_empty.
  - rewrite sum_values_insert_fresh by done.
    assert (0 ≤ v) by (apply (Hpos k); apply lookup_insert_eq).
    assert (0 ≤ sum_values m); [|lia].
    apply IH. intros k' v' Hk'. apply (Hpos k').
    rewrite lookup_insert_ne; [done|]. intros ->. congruence.
Qed.

Lemma mapping_get_le_sum m k :
  (∀ k v, m !! k = Some v → 0 ≤ v) → mapping_get m k ≤ sum_values m.
Proof.
  intros Hpos.
  assert (0 ≤ sum_values (delete k m)) as Hd.
  { apply sum_values_nonneg. intros k' v' Hk'.
    apply lookup_delete_Some in Hk' as [_ Hk']. eauto. }
  rewrite sum_values_delete in Hd. lia.
Qed.

Lemma mapping_get_nonneg m k :
  (∀ k v, m !! k = Some v → 0 ≤ v) → 0 ≤ mapping_get m k.
Proof.
  intros Hpos. unfold mapping_get.
  destruct (m !! k) eqn:Hk; simpl; [eauto | lia].
Qed.

Lemma mapping_get_pair_le_sum m k k' :
  (∀ k v, m !! k = Some v → 0 ≤ v) → k ≠ k' →
  mapping_get m k + mapping_get m k' ≤ sum_values m.
Proof.
  intros Hpos Hne.
  assert (mapping_get (delete k m) k' ≤ sum_values (delete k m)) as Hd.
  { apply mapping_get_le_sum. intros j v Hj.
    apply lookup_delete_Some in Hj as [_ Hj]. eauto. }
  rewrite sum_values_delete in Hd.
  unfold mapping_get in Hd at 1. rewrite lookup_delete_ne in Hd by done.
  fold (mapping_get m k') in Hd. lia.
Qed.

Lemma mapping_get_insert m k k' v :
  mapping_get (<[k := v]> m) k'
  = if decide (k = k') then v else mapping_get m k'.
Proof.
  unfold mapping_get. rewrite lookup_insert. by case_decide.
Qed.
End Sum.

(** A list of distinct numbers below [n] has at most [n] elements. *)
Lemma bounded_keys_length (n : nat) (l : list nat) :
  NoDup l → (∀ x, x ∈ l → (x < n)%nat) → (length l ≤ n)%nat.
Proof.
  intros Hnd Hlt.
  transitivity (length (seq 0%nat n)); [|by rewrite length_seq].
  apply submseteq_length, NoDup_submseteq; [done|].
  intros x Hx. apply elem_of_seq. specialize (Hlt x Hx). lia.
Qed.

Lemma size_bounded_keys {V} (n : N)
  (m : gmap (dsig (λ x : N, (x < n)%N)) V) :
  (size m ≤ N.to_nat n)%nat.
Proof.
  pose (to_nat := λ a : dsig (λ x : N, (x < n)%N), N.to_nat (`a)).
  rewrite <- length_map_to_list.
  rewrite <- (length_fmap fst), <- (length_fmap to_nat).
  apply bounded_keys_length.
  - apply NoDup_fmap_2; [|apply NoDup_fst_map_to_list].
    intros a b Hab. apply dsig_eq. by apply N2Nat.inj.
  - intros x [a [-> _]]%list_elem_of_fmap.
    pose proof (proj2_dsig a) as Ha. unfold to_nat. simpl in Ha. lia.
Qed.

(** At most [2^160] keys fit in a mapping from addresses. *)
Lemma size_address_map {V} (m : gmap address V) :
  Z.of_nat (size m) ≤ 2 ^ 160.
Proof.
  pose proof (size_bounded_keys (2 ^ 160)%N m) as Hle.
  apply Nat2Z.inj_le in Hle. by rewrite N_nat_Z in Hle.
Qed.
End MappingFacts.

(** ** The contract *)

Module AtaTokenFacts.
Import ERC20 AtaToken Effects Invariant MappingFacts.

Ltac exec_unfold :=
  unfold transfer, approve, transferFrom, increaseAllowance,
    decreaseAllowance, _spendAllowance, _transfer, _approve, _mint,
    view, require, checked_add, checked_mul, checked_pow, get, revert,
    set_balance, set_allowance, set_totalSupply, set_claimant,
    set_rewardAmount, mbind, mret, exec_bind, exec_ret in *.

(** *** What [_mint] and [claim] compute *)

Lemma _mint_eq account amount s :
  _mint account amount s =
    if decide (account = address_zero)
    then (Reverted (Error "ERC20: mint to the zero address"), s)
    else if decide (_totalSupply s + amount ≤ UINT256_MAX)
    then (Ok tt, minted account amount s)
    else (Reverted (Panic 17), s).
Proof.
  exec_unfold. case_decide as Hz.
  - rewrite bool_decide_eq_false_2 by naive_solver. done.
  - rewrite bool_decide_eq_true_2 by done. simpl.
    case_decide as Hle.
    + apply Z.leb_le in Hle. rewrite Hle. done.
    + apply Z.leb_nle in Hle. rewrite Hle. done.
Qed.

Lemma claim_eq msg_sender s :
  claim msg_sender s =
    if hasClaimed msg_sender s then (Reverted AlreadyClaimed, s)
    else if decide (msg_sender = address_zero)
    then (Reverted (Error "ERC20: mint to the zero address"), s)
    else if decide (_totalSupply s + rewardAmount s ≤ UINT256_MAX)
    then (Ok tt, claimed msg_sender s)
    else (Reverted (Panic 17), s).
Proof.
  unfold claim.
  unfold mbind at 1, exec_bind, get at 1.
  unfold mbind at 1, exec_bind, require.
  destruct (hasClaimed msg_sender s); simpl; [done|].
  unfold mbind at 1, exec_bind. rewrite _mint_eq.
  repeat case_decide; done.
Qed.

Lemma _transfer_eq from to amount s :
  _transfer from to amount s =
    if decide (from = address_zero)
    then (Reverted (Error "ERC20: transfer from the zero address"), s)
    else if decide (to = address_zero)
    then (Reverted (Error "ERC20: transfer to the zero address"), s)
    else if decide (amount ≤ balanceOf from s)
    then (Ok tt, transferred from to amount s)
    else (Reverted (Error "ERC20: transfer amount exceeds balance"), s).
Proof.
  exec_unfold. case_decide as Hf.
  { rewrite bool_decide_eq_false_2 by naive_solver. done. }
  rewrite bool_decide_eq_true_2 by done. simpl.
  case_decide as Ht.
  { rewrite bool_decide_eq_false_2 by naive_solver. done. }
  rewrite bool_decide_eq_true_2 by done. simpl.
  case_decide as Hle.
  - apply Z.leb_le in Hle. rewrite Hle. done.
  - apply Z.leb_nle in Hle. rewrite Hle. done.
Qed.

Lemma _approve_eq owner spender amount s :
  _approve owner spender amount s =
    if decide (owner = address_zero)
    then (Reverted (Error "ERC20: approve from the zero address"), s)
    else if decide (spender = address_zero)
    then (Reverted (Error "ERC20: approve to the zero address"), s)
    else (Ok tt, approved owner spender amount s).
Proof.
  exec_unfold. case_decide as Ho.
  { rewrite bool_decide_eq_false_2 by naive_solver. done. }
  rewrite bool_decide_eq_true_2 by done. simpl.
  case_decide as Hs.
  { rewrite bool_decide_eq_false_2 by naive_solver. done. }
  rewrite bool_decide_eq_true_2 by done. done.
Qed.

(** *** The invariant *)

Lemma wrap256_small v : 0 ≤ v ≤ UINT256_MAX → wrap256 v = v.
Proof. unfold wrap256, UINT256_MAX. intros. apply Z.mod_small. lia. Qed.

Lemma invariant_supply_bound s :
  invariant s →
  0 ≤ _totalSupply s ∧
  _totalSupply s
  ≤ 1000000 * 10 ^ decimals + 1000 * 10 ^ decimals * 2 ^ 160.
Proof.
  intros [Hr _ Hs _ _]. rewrite Hs, Hr.
  pose proof (size_address_map (claimants s)).
  unfold decimals. nia.
Qed.

Lemma invariant_balance_bound s a :
  invariant s → 0 ≤ balanceOf a s ≤ _totalSupply s.
Proof.
  intros [_ _ _ Hb Hsum]. unfold balanceOf. rewrite <- Hsum. split.
  - by apply mapping_get_nonneg.
  - by apply mapping_get_le_sum.
Qed.

Lemma deploy_eq msg_sender :
  deploy msg_sender =
    if decide (msg_sender = address_zero) then None
    else Some (deployed msg_sender).
Proof.
  unfold deploy, constructor, set_rewardAmount.
  unfold mbind, exec_bind, checked_pow, checked_mul, mret, exec_ret.
  change (10 ^ decimals <=? UINT256_MAX) with true. cbv beta iota.
  change (1000000 * 10 ^ decimals <=? UINT256_MAX) with true.
  cbv beta iota. rewrite _mint_eq.
  case_decide; [done|].
  rewrite decide_True by (vm_compute; discriminate).
  change (1000 * 10 ^ decimals <=? UINT256_MAX) with true.
  reflexivity.
Qed.

Lemma invariant_deployed msg_sender : invariant (deployed msg_sender).
Proof.
  split; unfold deployed;
    cbn [_balances _allowances _totalSupply claimants rewardAmount].
  - done.
  - intros a v. by rewrite lookup_empty.
  - rewrite map_size_empty. lia.
  - intros a v [_ <-]%lookup_singleton_Some. unfold decimals. lia.
  - rewrite <- insert_empty, sum_values_insert_fresh by apply lookup_empty.
    rewrite sum_values_empty. lia.
Qed.

Lemma pending_not_written s a :
  invariant s → hasClaimed a s = false → claimants s !! a = None.
Proof.
  intros Hinv Hc. destruct (claimants s !! a) as [v|] eqn:Ha; [|done].
  pose proof (inv_status s Hinv a v Ha) as ->.
  unfold hasClaimed, claim_status, mapping_get in Hc. rewrite Ha in Hc.
  done.
Qed.

Lemma invariant_claim_fits s a :
  invariant s → hasClaimed a s = false →
  _totalSupply s + rewardAmount s ≤ UINT256_MAX.
Proof.
  intros Hinv Hc. pose proof (pending_not_written s a Hinv Hc) as Ha.
  pose proof
    (size_address_map (<[a := CLAIM_STATUS_CLAIMED]> (claimants s))) as Hsz.
  rewrite map_size_insert_None in Hsz by done.
  destruct Hinv as [Hr _ Hs _ _]. rewrite Hs, Hr.
  unfold UINT256_MAX, decimals. nia.
Qed.

Lemma invariant_claimed s a :
  invariant s → hasClaimed a s = false → invariant (claimed a s).
Proof.
  intros Hinv Hc.
  pose proof (pending_not_written s a Hinv Hc) as Ha.
  pose proof (invariant_claim_fits s a Hinv Hc) as Hfit.
  pose proof (invariant_balance_bound s a Hinv) as Hb.
  assert (0 ≤ rewardAmount s) as Hrpos.
  { rewrite (inv_reward s Hinv). unfold decimals. lia. }
  assert (wrap256 (balanceOf a s + rewardAmount s)
          = balanceOf a s + rewardAmount s) as Hw.
  { apply wrap256_small. lia. }
  destruct Hinv as [Hr Hst Hs Hbal Hsum].
  split; simpl.
  - done.
  - intros a' v. rewrite lookup_insert. case_decide; [congruence|eauto].
  - rewrite map_size_insert_None by done. rewrite Hs. lia.
  - intros a' v. rewrite lookup_insert. case_decide; [|eauto].
    intros [= Hv]. lia.
  - rewrite sum_values_insert, Hw, Hsum. unfold balanceOf. lia.
Qed.

Lemma invariant_transferred s from to amount :
  invariant s → 0 ≤ amount ≤ balanceOf from s →
  invariant (transferred from to amount s).
Proof.
  intros Hinv Hamt.
  pose proof (invariant_supply_bound s Hinv) as Hsup.
  pose proof (invariant_balance_bound s from Hinv) as Hfb.
  pose proof (invariant_balance_bound s to Hinv) as Htb.
  destruct Hinv as [Hr Hst Hs Hbal Hsum].
  assert (from ≠ to → balanceOf from s + balanceOf to s ≤ _totalSupply s)
    as Hpair.
  { intros Hne. rewrite <- Hsum. by apply mapping_get_pair_le_sum. }
  set (debited := <[from := balanceOf from s - amount]> (_balances s)).
  assert (wrap256 (mapping_get debited to + amount)
          = mapping_get debited to + amount) as Hw.
  { apply wrap256_small. unfold debited. rewrite mapping_get_insert.
    unfold UINT256_MAX, decimals in *. case_decide; [lia|].
    specialize (Hpair ltac:(done)). fold (balanceOf to s). lia. }
  unfold debited in Hw. clear debited.
  split; simpl; try done.
  - intros a v. rewrite Hw, !lookup_insert.
    rewrite mapping_get_insert. fold (balanceOf to s).
    repeat case_decide; try (intros [= <-]; lia); eauto.
  - rewrite Hw, !sum_values_insert, Hsum.
    rewrite !mapping_get_insert. fold (balanceOf from s) (balanceOf to s).
    case_decide; lia.
Qed.

Lemma invariant_approved s owner spender amount :
  invariant s → invariant (approved owner spender amount s).
Proof. intros [? ? ? ? ?]. by split. Qed.

(** *** Calls *)

Lemma bind_ok_inv {A B} (m : exec A) (k : A → exec B) s b s' :
  (m ≫= k) s = (Ok b, s') →
  ∃ a s1, m s = (Ok a, s1) ∧ k a s1 = (Ok b, s').
Proof.
  unfold mbind, exec_bind. destruct (m s) as [[a|f] s1]; [eauto|done].
Qed.

Lemma _transfer_ok from to amount s s' :
  _transfer from to amount s = (Ok tt, s') →
  amount ≤ balanceOf from s ∧ s' = transferred from to amount s.
Proof.
  rewrite _transfer_eq. repeat case_decide; naive_solver.
Qed.

Lemma _approve_ok owner spender amount s s' :
  _approve owner spender amount s = (Ok tt, s') →
  s' = approved owner spender amount s.
Proof.
  rewrite _approve_eq. repeat case_decide; naive_solver.
Qed.

Lemma _spendAllowance_ok owner spender amount s s' :
  _spendAllowance owner spender amount s = (Ok tt, s') →
  s' = s ∨ ∃ v, s' = approved owner spender v s.
Proof.
  unfold _spendAllowance. intros (s0 & s1 & [= <- <-] & Hk)%bind_ok_inv.
  case_bool_decide.
  - apply bind_ok_inv in Hk as ([] & s2 & Hreq & Hk).
    unfold require in Hreq. case_match; [|done].
    injection Hreq as <-. apply _approve_ok in Hk. eauto.
  - injection Hk as <-. by left.
Qed.

Lemma exec_frame_bind {A B} (m : exec A) (k : A → exec B) s :
  same_claims s (snd (m s)) →
  (∀ a s1, same_claims s1 (snd (k a s1))) →
  same_claims s (snd ((m ≫= k) s)).
Proof.
  unfold mbind, exec_bind. intros Hm Hk.
  destruct (m s) as [[a|f] s1]; simpl in *; [|done].
  destruct (Hk a s1) as [Hk1 Hk2], Hm as [Hm1 Hm2]. split; congruence.
Qed.

Lemma same_claims_approve owner spender amount s :
  same_claims s (snd (_approve owner spender amount s)).
Proof. rewrite _approve_eq. by repeat case_decide. Qed.

Lemma same_claims_transfer from to amount s :
  same_claims s (snd (_transfer from to amount s)).
Proof. rewrite _transfer_eq. by repeat case_decide. Qed.

Lemma same_claims_require c reason s :
  same_claims s (snd (require c reason s)).
Proof. unfold require. by destruct c. Qed.

Lemma same_claims_spendAllowance owner spender amount s :
  same_claims s (snd (_spendAllowance owner spender amount s)).
Proof.
  unfold _spendAllowance. apply exec_frame_bind; [done|].
  intros s0 s1. case_bool_decide; [|done].
  apply exec_frame_bind; [apply same_claims_require|].
  intros. apply same_claims_approve.
Qed.

Lemma dispatch_same_claims c msg_sender s :
  c ≠ call_claim → same_claims s (snd (dispatch c msg_sender s)).
Proof.
  intros Hc. destruct c; try done; unfold dispatch.
  - apply exec_frame_bind; [|done].
    unfold transfer. apply exec_frame_bind; [|done].
    apply same_claims_transfer.
  - apply exec_frame_bind; [|done].
    unfold approve. apply exec_frame_bind; [|done].
    apply same_claims_approve.
  - apply exec_frame_bind; [|done].
    unfold transferFrom. apply exec_frame_bind.
    { apply same_claims_spendAllowance. }
    intros. apply exec_frame_bind; [|done]. apply same_claims_transfer.
  - apply exec_frame_bind; [|done].
    unfold increaseAllowance. apply exec_frame_bind; [done|].
    intros. apply exec_frame_bind.
    { unfold checked_add. by case_match. }
    intros. apply exec_frame_bind; [|done]. apply same_claims_approve.
  - apply exec_frame_bind; [|done].
    unfold decreaseAllowance. apply exec_frame_bind; [done|].
    intros. apply exec_frame_bind; [apply same_claims_require|].
    intros. apply exec_frame_bind; [|done]. apply same_claims_approve.
Qed.

Lemma dispatch_invariant c msg_sender s r s' :
  invariant s → call_args_ok c →
  dispatch c msg_sender s = (Ok r, s') → invariant s'.
Proof.
  intros Hinv Hargs. destruct c; unfold dispatch; simpl in Hargs.
  - intros ([] & s1 & Hc & [= _ <-])%bind_ok_inv.
    rewrite claim_eq in Hc.
    destruct (hasClaimed msg_sender s) eqn:Hcl; [done|].
    repeat case_decide; try done. injection Hc as <-.
    by apply invariant_claimed.
  - by intros [= _ <-].
  - by intros [= _ <-].
  - by intros [= _ <-].
  - by intros [= _ <-].
  - by intros [= _ <-].
  - by intros [= _ <-].
  - by intros [= _ <-].
  - by intros [= _ <-].
  - intros (b & s1 & Hc & [= _ <-])%bind_ok_inv.
    apply bind_ok_inv in Hc as ([] & s2 & Ht & [= _ <-]).
    apply _transfer_ok in Ht as [Hle ->].
    apply invariant_transferred; [done|]. unfold uint256_range in Hargs. lia.
  - intros (b & s1 & Hc & [= _ <-])%bind_ok_inv.
    apply bind_ok_inv in Hc as ([] & s2 & Ha & [= _ <-]).
    apply _approve_ok in Ha as ->. by apply invariant_approved.
  - intros (b & s1 & Hc & [= _ <-])%bind_ok_inv.
    apply bind_ok_inv in Hc as ([] & s2 & Hsp & Hc).
    apply bind_ok_inv in Hc as ([] & s3 & Ht & [= _ <-]).
    apply _transfer_ok in Ht as [Hle ->].
    apply invariant_transferred; [|unfold uint256_range in Hargs; lia].
    apply _spendAllowance_ok in Hsp as [->|[v ->]]; [done|].
    by apply invariant_approved.
  - intros (b & s1 & Hc & [= _ <-])%bind_ok_inv.
    apply bind_ok_inv in Hc as (s0 & s2 & [= <- <-] & Hc).
    apply bind_ok_inv in Hc as (v & s2 & Hadd & Hc).
    apply bind_ok_inv in Hc as ([] & s3 & Ha & [= _ <-]).
    apply _approve_ok in Ha as ->.
    unfold checked_add in Hadd. case_match; [|done].
    injection Hadd as _ <-. by apply invariant_approved.
  - intros (b & s1 & Hc & [= _ <-])%bind_ok_inv.
    apply bind_ok_inv in Hc as (s0 & s2 & [= <- <-] & Hc).
    apply bind_ok_inv in Hc as ([] & s2 & Hreq & Hc).
    apply bind_ok_inv in Hc as ([] & s3 & Ha & [= _ <-]).
    apply _approve_ok in Ha as ->.
    unfold require in Hreq. case_match; [|done].
    injection Hreq as <-. by apply invariant_approved.
Qed.

Lemma transact_ok {A} (code : exec A) s a s' :
  transact code s = (Ok a, s') ↔ code s = (Ok a, s').
Proof.
  unfold transact. destruct (code s) as [[a'|f] s1]; naive_solver.
Qed.

Lemma transact_reverted {A} (code : exec A) s f s' :
  transact code s = (Reverted f, s') → s' = s.
Proof.
  unfold transact. destruct (code s) as [[a'|f'] s1]; naive_solver.
Qed.

Lemma transact_invariant c msg_sender s o s' :
  invariant s → call_args_ok c →
  transact (dispatch c msg_sender) s = (o, s') → invariant s'.
Proof.
  intros Hinv Hargs Ht. destruct o as [r|f].
  - rewrite transact_ok in Ht. eapply dispatch_invariant; eauto.
  - by apply transact_reverted in Ht as ->.
Qed.

Lemma run_invariant s txs s' : run s txs s' → invariant s → invariant s'.
Proof.
  induction 1 as [|s txs s' msg_sender c o s'' _ IH Hargs Ht]; [done|].
  intros Hinv. apply IH in Hinv.
  exact (transact_invariant _ _ _ _ _ Hinv Hargs Ht).
Qed.

Lemma deploy_invariant deployer s : deploy deployer = Some s → invariant s.
Proof.
  rewrite deploy_eq. case_decide; [done|].
  intros [= <-]. apply invariant_deployed.
Qed.

Lemma reachable_invariant s : reachable s → invariant s.
Proof.
  intros (txs & deployer & s0 & Hd & Hrun).
  eapply run_invariant; [done|]. by eapply deploy_invariant.
Qed.

(** In a reachable state a status is PENDING or CLAIMED, nothing else. *)
Lemma status_pending_or_claimed s a :
  invariant s →
  claim_status a s = CLAIM_STATUS_PENDING
  ∨ claim_status a s = CLAIM_STATUS_CLAIMED.
Proof.
  intros Hinv. unfold claim_status, mapping_get.
  destruct (claimants s !! a) as [v|] eqn:Ha; simpl; [|by left].
  right. by eapply inv_status.
Qed.

Lemma hasClaimed_true a s :
  hasClaimed a s = true ↔ claim_status a s = CLAIM_STATUS_CLAIMED.
Proof. unfold hasClaimed. apply Z.eqb_eq. Qed.

Lemma hasClaimed_false a s :
  hasClaimed a s = false ↔ claim_status a s ≠ CLAIM_STATUS_CLAIMED.
Proof. unfold hasClaimed. apply Z.eqb_neq. Qed.

Lemma transact_claim msg_sender s :
  transact (claim msg_sender) s = claim msg_sender s.
Proof.
  unfold transact. rewrite claim_eq.
  destruct (hasClaimed msg_sender s); [done|]. by repeat case_decide.
Qed.

(** [address(0)] cannot claim: the mint refuses it. *)
Lemma claim_zero_address s :
  hasClaimed address_zero s = false →
  claim address_zero s
  = (Reverted (Error "ERC20: mint to the zero address"), s).
Proof. intros Hcl. rewrite claim_eq, Hcl. by rewrite decide_True. Qed.

Lemma claim_status_claimed a b s :
  claim_status a (claimed b s) =
    if decide (b = a) then CLAIM_STATUS_CLAIMED else claim_status a s.
Proof. unfold claim_status, claimed. simpl. apply mapping_get_insert. Qed.

(** What a successful [claim] does in a state that satisfies the
    invariant. *)
Lemma claim_ok_effect s msg_sender s' :
  invariant s → claim msg_sender s = (Ok tt, s') →
  s' = claimed msg_sender s ∧
  hasClaimed msg_sender s = false ∧
  balanceOf msg_sender s' = balanceOf msg_sender s + rewardAmount s ∧
  (∀ other, other ≠ msg_sender → balanceOf other s' = balanceOf other s) ∧
  totalSupply s' = totalSupply s + rewardAmount s ∧
  claim_status msg_sender s' = CLAIM_STATUS_CLAIMED.
Proof.
  intros Hinv. rewrite claim_eq.
  destruct (hasClaimed msg_sender s) eqn:Hcl; [done|].
  repeat case_decide; try done. intros [= <-].
  pose proof (invariant_claim_fits s msg_sender Hinv Hcl) as Hfit.
  pose proof (invariant_balance_bound s msg_sender Hinv) as Hb.
  assert (0 ≤ rewardAmount s) as Hrpos.
  { rewrite (inv_reward s Hinv). unfold decimals. lia. }
  repeat split.
  - unfold balanceOf at 1, claimed. simpl. rewrite mapping_get_insert.
    rewrite decide_True by done. apply wrap256_small. lia.
  - intros other Hne. unfold balanceOf at 1, claimed. simpl.
    rewrite mapping_get_insert. by rewrite decide_False.
  - rewrite claim_status_claimed. by rewrite decide_True.
Qed.

(** *** Histories *)

Lemma dispatch_claim msg_sender s :
  dispatch call_claim msg_sender s =
    match claim msg_sender s with
    | (Ok _, s') => (Ok ret_none, s')
    | (Reverted f, s') => (Reverted f, s')
    end.
Proof.
  unfold dispatch, mbind, exec_bind.
  by destruct (claim msg_sender s) as [[[]|f] s1].
Qed.

(** The status of [a] after any call: CLAIMED if the call is a
    successful claim of [a], and what it was otherwise. *)
Lemma transact_status a c msg_sender s o s' :
  transact (dispatch c msg_sender) s = (o, s') →
  claim_status a s' =
    if decide (mkTx msg_sender c (succeeded o) = mkTx a call_claim true)
    then CLAIM_STATUS_CLAIMED else claim_status a s.
Proof.
  intros Ht. destruct (decide (c = call_claim)) as [->|Hc].
  - unfold transact in Ht. rewrite dispatch_claim, claim_eq in Ht.
    assert (o = Ok ret_none ∧ s' = claimed msg_sender s
            ∨ succeeded o = false ∧ s' = s) as [[-> ->]|[Ho ->]].
    { destruct (hasClaimed msg_sender s); [naive_solver|].
      repeat case_decide; naive_solver. }
    + rewrite claim_status_claimed. simpl.
      destruct (decide (msg_sender = a)) as [->|Hne].
      * by rewrite decide_True.
      * rewrite decide_False; [done|]. by intros [=].
    + rewrite Ho. by rewrite decide_False by (by intros [=]).
  - rewrite decide_False by (intros [=]; done).
    pose proof (dispatch_same_claims c msg_sender s Hc) as [Hcl _].
    unfold transact in Ht. unfold claim_status.
    destruct (dispatch c msg_sender s) as [[r|f] s1];
      injection Ht as <- <-; simpl in *; congruence.
Qed.

Lemma claims_by_snoc a txs t :
  claims_by a (txs ++ [t]) =
    (claims_by a txs
     + if decide (t = mkTx a call_claim true) then 1 else 0)%nat.
Proof.
  unfold claims_by. rewrite filter_app, length_app. f_equal.
  rewrite filter_cons, filter_nil. by case_decide.
Qed.

Lemma claims_by_zero a txs : ¬ claimed_in a txs → claims_by a txs = 0%nat.
Proof.
  unfold claims_by, claimed_in. intros Hnot.
  destruct (filter _ txs) as [|t l] eqn:Hf; [done|].
  assert (t ∈ filter (λ t, t = mkTx a call_claim true) txs) as Ht.
  { rewrite Hf. apply list_elem_of_here. }
  apply list_elem_of_filter in Ht as [-> Ht]. done.
Qed.

Lemma claimed_in_snoc a txs t :
  claimed_in a (txs ++ [t]) ↔
  claimed_in a txs ∨ t = mkTx a call_claim true.
Proof.
  unfold claimed_in. rewrite elem_of_app, list_elem_of_singleton.
  intuition congruence.
Qed.

(** After a run, [a] is CLAIMED exactly if it was before or claimed
    successfully during the run. *)
Lemma run_status a s txs s' :
  run s txs s' →
  (claim_status a s' = CLAIM_STATUS_CLAIMED ↔
   claim_status a s = CLAIM_STATUS_CLAIMED ∨ claimed_in a txs).
Proof.
  induction 1 as [|s txs s' msg_sender c o s'' _ IH Hargs Ht].
  - unfold claimed_in. split; [by left|].
    intros [?|?%elem_of_nil]; done.
  - rewrite claimed_in_snoc, (transact_status a _ _ _ _ _ Ht).
    case_decide as Heq; [by split; [right; right|]|].
    rewrite IH. tauto.
Qed.

Lemma run_claims_once a s txs s' :
  run s txs s' → (claims_by a txs ≤ 1)%nat.
Proof.
  induction 1 as [|s txs s' msg_sender c o s'' Hrun IH Hargs Ht].
  - unfold claims_by. simpl. lia.
  - rewrite claims_by_snoc. case_decide as Heq; [|lia].
    injection Heq as -> -> Ho. destruct o as [r|f]; [|done].
    rewrite transact_ok, dispatch_claim, claim_eq in Ht.
    destruct (hasClaimed a s') eqn:Hcl; [done|].
    apply hasClaimed_false in Hcl.
    rewrite claims_by_zero; [lia|]. intros Hin. apply Hcl.
    apply (run_status a _ _ _ Hrun). by right.
Qed.
End AtaTokenFacts.

(** ** The claim guard: the properties of the specification *)

Module AtaTokenSpec.
Import ERC20 AtaToken Effects Invariant MappingFacts AtaTokenFacts Examples.

Lemma s_deployed_reachable : reachable s_deployed.
Proof. exists [], alice, s_deployed. split; [reflexivity|constructor]. Qed.

Lemma s_bob_claimed_run :
  run s_deployed [mkTx bob call_claim true] s_bob_claimed.
Proof.
  apply (run_snoc s_deployed [] s_deployed bob call_claim (Ok ret_none));
    [constructor | exact I | reflexivity].
Qed.

Lemma s_bob_claimed_reachable : reachable s_bob_claimed.
Proof.
  exists [mkTx bob call_claim true], alice, s_deployed.
  split; [reflexivity | apply s_bob_claimed_run].
Qed.

Lemma s_bob_paid_run : run s_bob_claimed later_calls s_bob_paid.
Proof.
  apply (run_snoc s_bob_claimed [mkTx bob call_claim false] s_bob_claimed
           alice (call_transfer bob 5) (Ok (ret_bool true))).
  - apply (run_snoc s_bob_claimed [] s_bob_claimed bob call_claim
             (Reverted AlreadyClaimed));
      [constructor | exact I | reflexivity].
  - by compute.
  - reflexivity.
Qed.

Lemma s_deployed_run :
  run s_deployed (mkTx bob call_claim true :: later_calls) s_bob_paid.
Proof.
  apply (run_snoc s_deployed
           [mkTx bob call_claim true; mkTx bob call_claim false]
           s_bob_claimed alice (call_transfer bob 5) (Ok (ret_bool true))).
  - apply (run_snoc s_deployed [mkTx bob call_claim true] s_bob_claimed
             bob call_claim (Reverted AlreadyClaimed));
      [apply s_bob_claimed_run | exact I | reflexivity].
  - by compute.
  - reflexivity.
Qed.

Lemma bob_not_zero : bob ≠ address_zero.
Proof. intros [=]. Qed.

(** C1. In a reachable state, for an account that sends transactions
    (any address but [address(0)]), the status is PENDING or CLAIMED.
    [claim] fails with AlreadyClaimed when the status of the account is
    CLAIMED; when it is PENDING, [claim] succeeds, the balance of the
    account and the supply grow by the reward amount, no other balance
    changes, and the status of the account becomes CLAIMED. *)
Theorem claim_guard (s : State) (msg_sender : address) :
  reachable s → msg_sender ≠ address_zero →
  (claim_status msg_sender s = CLAIM_STATUS_PENDING
   ∨ claim_status msg_sender s = CLAIM_STATUS_CLAIMED) ∧
  (claim_status msg_sender s = CLAIM_STATUS_CLAIMED →
     transact (claim msg_sender) s = (Reverted AlreadyClaimed, s)) ∧
  (claim_status msg_sender s = CLAIM_STATUS_PENDING →
     ∃ s', transact (claim msg_sender) s = (Ok tt, s') ∧
       balanceOf msg_sender s' = balanceOf msg_sender s + rewardAmount s ∧
       (∀ other, other ≠ msg_sender →
          balanceOf other s' = balanceOf other s) ∧
       totalSupply s' = totalSupply s + rewardAmount s ∧
       claim_status msg_sender s' = CLAIM_STATUS_CLAIMED).
Proof.
  intros Hinv%reachable_invariant Hnz. rewrite transact_claim.
  split; [by apply status_pending_or_claimed|]. split.
  - intros Hcl%hasClaimed_true. by rewrite claim_eq, Hcl.
  - intros Hp.
    assert (hasClaimed msg_sender s = false) as Hcl.
    { apply hasClaimed_false. by rewrite Hp. }
    pose proof (invariant_claim_fits s msg_sender Hinv Hcl) as Hfit.
    assert (claim msg_sender s = (Ok tt, claimed msg_sender s)) as Hok.
    { rewrite claim_eq, Hcl.
      by rewrite decide_False, decide_True by done. }
    exists (claimed msg_sender s). split; [done|].
    by apply (claim_ok_effect s msg_sender _ Hinv) in Hok as (_&_&?&?&?&?).
Qed.

Lemma claim_guard_witness :
  transact (claim bob) s_bob_claimed
  = (Reverted AlreadyClaimed, s_bob_claimed) ∧
  ∃ s', transact (claim bob) s_deployed = (Ok tt, s') ∧
    balanceOf bob s' = balanceOf bob s_deployed + rewardAmount s_deployed ∧
    (∀ other, other ≠ bob →
       balanceOf other s' = balanceOf other s_deployed) ∧
    totalSupply s' = totalSupply s_deployed + rewardAmount s_deployed ∧
    claim_status bob s' = CLAIM_STATUS_CLAIMED.
Proof.
  split.
  - apply (claim_guard s_bob_claimed bob s_bob_claimed_reachable
             bob_not_zero).
    reflexivity.
  - apply (claim_guard s_deployed bob s_deployed_reachable bob_not_zero).
    reflexivity.
Defined.

(** C2. In a reachable state, for an account that sends transactions
    (any address but [address(0)]) and whose status is PENDING, two calls
    of [claim] in sequence: the first succeeds, the second fails with
    AlreadyClaimed. *)
Theorem claim_twice (s : State) (msg_sender : address) :
  reachable s → msg_sender ≠ address_zero →
  claim_status msg_sender s = CLAIM_STATUS_PENDING →
  ∃ s', transact (claim msg_sender) s = (Ok tt, s') ∧
        transact (claim msg_sender) s' = (Reverted AlreadyClaimed, s').
Proof.
  intros Hinv%reachable_invariant Hnz Hp.
  assert (hasClaimed msg_sender s = false) as Hcl.
  { apply hasClaimed_false. by rewrite Hp. }
  pose proof (invariant_claim_fits s msg_sender Hinv Hcl) as Hfit.
  exists (claimed msg_sender s). rewrite !transact_claim, !claim_eq, Hcl.
  rewrite decide_False, decide_True by done. split; [done|].
  assert (hasClaimed msg_sender (claimed msg_sender s) = true) as ->; [|done].
  apply hasClaimed_true. rewrite claim_status_claimed.
  by rewrite decide_True.
Qed.

Lemma claim_twice_witness :
  ∃ s', transact (claim bob) s_deployed = (Ok tt, s') ∧
        transact (claim bob) s' = (Reverted AlreadyClaimed, s').
Proof.
  apply (claim_twice s_deployed bob s_deployed_reachable bob_not_zero).
  reflexivity.
Defined.

(** C3. Whatever calls are made, by whomever and with whatever
    result: an account that is CLAIMED stays CLAIMED and is never PENDING
    again, and an account has at most one successful [claim]. *)
Theorem claimed_is_final (s : State) (txs : list Tx) (s' : State)
  (a : address) :
  run s txs s' →
  (claim_status a s = CLAIM_STATUS_CLAIMED →
     claim_status a s' = CLAIM_STATUS_CLAIMED ∧
     claim_status a s' ≠ CLAIM_STATUS_PENDING) ∧
  (claims_by a txs ≤ 1)%nat.
Proof.
  intros Hrun. split.
  - intros Hcl.
    assert (claim_status a s' = CLAIM_STATUS_CLAIMED) as Hcl'.
    { apply (run_status a _ _ _ Hrun). by left. }
    split; [done|]. by rewrite Hcl'.
  - by eapply run_claims_once.
Qed.

Lemma claimed_is_final_witness :
  (claim_status bob s_bob_paid = CLAIM_STATUS_CLAIMED ∧
   claim_status bob s_bob_paid ≠ CLAIM_STATUS_PENDING) ∧
  (claims_by bob later_calls ≤ 1)%nat.
Proof.
  destruct (claimed_is_final s_bob_claimed later_calls s_bob_paid bob
              s_bob_paid_run) as [Hfinal Honce].
  split; [apply Hfinal; reflexivity | exact Honce].
Defined.

(** C4. [claim] is all or nothing. When it fails, the storage is the
    one before the call, and nothing had been written when the failure
    was raised: no token is minted and no status changes. When it
    succeeds, the account was not CLAIMED, and the new state has both
    the reward minted and the status CLAIMED. *)
Theorem claim_atomic (s : State) (msg_sender : address) :
  reachable s →
  (∀ f s', claim msg_sender s = (Reverted f, s') → s' = s) ∧
  (∀ f s', transact (claim msg_sender) s = (Reverted f, s') → s' = s) ∧
  (∀ s', transact (claim msg_sender) s = (Ok tt, s') →
     claim_status msg_sender s = CLAIM_STATUS_PENDING ∧
     balanceOf msg_sender s' = balanceOf msg_sender s + rewardAmount s ∧
     totalSupply s' = totalSupply s + rewardAmount s ∧
     claim_status msg_sender s' = CLAIM_STATUS_CLAIMED).
Proof.
  intros Hinv%reachable_invariant. split; [|split].
  - intros f s'. rewrite claim_eq.
    destruct (hasClaimed msg_sender s); [congruence|].
    repeat case_decide; congruence.
  - intros f s'. apply transact_reverted.
  - intros s'. rewrite transact_claim. intros Hok.
    apply (claim_ok_effect s msg_sender _ Hinv) in Hok
      as (_ & Hcl%hasClaimed_false & ? & _ & ? & ?).
    by destruct (status_pending_or_claimed s msg_sender Hinv).
Qed.

Lemma claim_atomic_witness :
  snd (claim bob s_bob_claimed) = s_bob_claimed ∧
  snd (transact (claim bob) s_bob_claimed) = s_bob_claimed ∧
  balanceOf bob s_bob_claimed
  = balanceOf bob s_deployed + rewardAmount s_deployed ∧
  totalSupply s_bob_claimed
  = totalSupply s_deployed + rewardAmount s_deployed ∧
  claim_status bob s_bob_claimed = CLAIM_STATUS_CLAIMED.
Proof.
  destruct (claim_atomic s_bob_claimed bob s_bob_claimed_reachable)
    as (Hraw & Hfail & _).
  destruct (claim_atomic s_deployed bob s_deployed_reachable)
    as (_ & _ & Hok).
  split; [|split].
  - apply (Hraw AlreadyClaimed). reflexivity.
  - apply (Hfail AlreadyClaimed). reflexivity.
  - apply (Hok s_bob_claimed). reflexivity.
Defined.

(** C6. In the state a history leads to, [hasClaimed] is false for an
    account that has no successful [claim] in the history, and true for
    one that has. *)
Theorem hasClaimed_iff_claimed (s : State) (txs : list Tx)
  (_account : address) :
  history s txs →
  (¬ claimed_in _account txs → hasClaimed _account s = false) ∧
  (claimed_in _account txs → hasClaimed _account s = true).
Proof.
  intros (deployer & s0 & Hd & Hrun).
  pose proof (run_status _account _ _ _ Hrun) as Hst.
  assert (claim_status _account s0 ≠ CLAIM_STATUS_CLAIMED) as Hp.
  { rewrite deploy_eq in Hd. case_decide; [done|].
    by injection Hd as <-. }
  split.
  - intros Hnot. apply hasClaimed_false. tauto.
  - intros Hin. apply hasClaimed_true. tauto.
Qed.

Lemma hasClaimed_iff_claimed_witness :
  hasClaimed bob s_deployed = false ∧ hasClaimed bob s_bob_claimed = true.
Proof.
  split.
  - apply (hasClaimed_iff_claimed s_deployed [] bob).
    + exists alice, s_deployed. split; [reflexivity | constructor].
    + intros Hin. apply elem_of_nil in Hin. exact Hin.
  - apply (hasClaimed_iff_claimed s_bob_claimed
             [mkTx bob call_claim true] bob).
    + exists alice, s_deployed. split; [reflexivity|].
      apply s_bob_claimed_run.
    + apply list_elem_of_here.
Defined.

(** C8. [hasClaimed] is a read: called by anyone in any state, it
    returns whether the status of the account is CLAIMED and leaves the
    whole storage as it is. *)
Theorem hasClaimed_is_pure (s : State) (_account msg_sender : address) :
  transact (dispatch (call_hasClaimed _account) msg_sender) s
  = (Ok (ret_bool (hasClaimed _account s)), s) ∧
  (hasClaimed _account s = true ↔
   claim_status _account s = CLAIM_STATUS_CLAIMED).
Proof. split; [reflexivity | apply hasClaimed_true]. Qed.

(** C9. The constructor sets the reward amount to 1000 * 10^decimals
    and mints 1000000 * 10^decimals to the deployer; no call changes the
    reward amount afterwards; a successful [claim] adds exactly that
    amount to the balance of the claiming account and to the supply. *)
Theorem reward_amount_fixed (deployer : address) (s0 : State)
  (txs : list Tx) (s : State) :
  deploy deployer = Some s0 → run s0 txs s →
  rewardAmount s0 = 1000 * 10 ^ decimals ∧
  balanceOf deployer s0 = 1000000 * 10 ^ decimals ∧
  totalSupply s0 = 1000000 * 10 ^ decimals ∧
  rewardAmount s = 1000 * 10 ^ decimals ∧
  (∀ msg_sender s', transact (claim msg_sender) s = (Ok tt, s') →
     balanceOf msg_sender s'
     = balanceOf msg_sender s + 1000 * 10 ^ decimals ∧
     totalSupply s' = totalSupply s + 1000 * 10 ^ decimals ∧
     rewardAmount s' = 1000 * 10 ^ decimals).
Proof.
  intros Hd Hrun.
  pose proof (deploy_invariant _ _ Hd) as Hinv0.
  pose proof (run_invariant _ _ _ Hrun Hinv0) as Hinv.
  rewrite deploy_eq in Hd. case_decide; [done|]. injection Hd as <-.
  split; [done|]. split.
  { unfold balanceOf, deployed, mapping_get. simpl.
    by rewrite lookup_singleton_eq. }
  split; [done|]. split; [apply (inv_reward s Hinv)|].
  intros msg_sender s'. rewrite transact_claim. intros Hok.
  apply (claim_ok_effect s msg_sender _ Hinv) in Hok
    as (-> & _ & Hb & _ & Ht & _).
  rewrite (inv_reward s Hinv) in Hb, Ht. split; [done|]. split; [done|].
  apply (inv_reward s Hinv).
Qed.

Lemma reward_amount_fixed_witness :
  rewardAmount s_deployed = 1000 * 10 ^ decimals ∧
  balanceOf alice s_deployed = 1000000 * 10 ^ decimals ∧
  totalSupply s_deployed = 1000000 * 10 ^ decimals ∧
  rewardAmount s_bob_paid = 1000 * 10 ^ decimals ∧
  (∀ msg_sender s',
     transact (claim msg_sender) s_bob_paid = (Ok tt, s') →
     balanceOf msg_sender s'
     = balanceOf msg_sender s_bob_paid + 1000 * 10 ^ decimals ∧
     totalSupply s' = totalSupply s_bob_paid + 1000 * 10 ^ decimals ∧
     rewardAmount s' = 1000 * 10 ^ decimals).
Proof.
  apply (reward_amount_fixed alice s_deployed
           (mkTx bob call_claim true :: later_calls) s_bob_paid).
  - reflexivity.
  - apply s_deployed_run.
Defined.
End AtaTokenSpec.

(** ** src/web3.js: the provider *)

Module Web3Spec.
Import Js Web3 Examples.

(** C10. Without an injected wallet object, [getWeb3Provider] returns
    [null] and does not throw, whatever the constructor would do; and a
    value of the exported [provider] is [null] or the provider object
    the constructor made of [window.ethereum]. *)
Theorem getWeb3Provider_null (Web3Provider : value → completion value)
  (window : Window) :
  (ethereum window = undefined →
     getWeb3Provider Web3Provider window = Normal null) ∧
  (ToBoolean (ethereum window) = false →
     getWeb3Provider Web3Provider window = Normal null) ∧
  (∀ v, provider Web3Provider window = Normal v →
     v = null ∨
     ToBoolean (ethereum window) = true ∧
     Web3Provider (ethereum window) = Normal v).
Proof.
  unfold provider, getWeb3Provider. split; [|split].
  - by intros ->.
  - by intros ->.
  - intros v. destruct (ToBoolean (ethereum window)).
    + intros Hv. by right.
    + intros [= <-]. by left.
Qed.

Lemma getWeb3Provider_null_witness :
  getWeb3Provider throwing_constructor bare_window = Normal null.
Proof.
  apply (getWeb3Provider_null throwing_constructor bare_window).
  reflexivity.
Defined.
End Web3Spec.

(** ** The client handlers *)

Module ClientSpec.
Import Js Client Examples.

Lemma settlements_not_submissions (tr : list Event) :
  forallb is_settlement tr = true → existsb is_submission tr = false.
Proof.
  induction tr as [|e tr IH]; [done|].
  destruct e; cbn; [done|]. exact IH.
Qed.

(** C7. [getBalanceAndClaimed] asks for the balance and for the claim
    status of the account over the read-only connection it was given; it
    submits no transaction, and sends both calls before either settles.
    Whichever settles first, when both are fulfilled the result is the
    pair of the balance, converted by [formatEther], and the status, in
    that order. *)
Theorem getBalanceAndClaimed_pair (formatEther : Z → string) (w : World)
  (account : Account) (provider : nat) :
  let dummyToken := connect DUMMY_TOKEN (Provider provider) in
  let execution :=
    run w (getBalanceAndClaimed formatEther account provider) [] in
  read_only (runner dummyToken) = true ∧
  existsb is_submission (fst execution) = false ∧
  ∃ settlements,
    fst execution
    = [Sent (balanceOf dummyToken account);
       Sent (hasClaimed dummyToken account)] ++ settlements ∧
    forallb is_settlement settlements = true ∧
    (∀ text claimed, snd execution = Normal (text, claimed) →
       ∃ balance,
         omap balance_result settlements = [Fulfilled balance] ∧
         omap claimed_result settlements = [Fulfilled claimed] ∧
         text = formatEther balance) ∧
    (∀ balance claimed,
       omap balance_result settlements = [Fulfilled balance] →
       omap claimed_result settlements = [Fulfilled claimed] →
       snd execution = Normal (formatEther balance, claimed)).
Proof.
  intros dummyToken execution. split; [done|].
  cut (∃ settlements,
         fst execution
         = [Sent (balanceOf dummyToken account);
            Sent (hasClaimed dummyToken account)] ++ settlements ∧
         forallb is_settlement settlements = true ∧
         (∀ text claimed, snd execution = Normal (text, claimed) →
            ∃ balance,
              omap balance_result settlements = [Fulfilled balance] ∧
              omap claimed_result settlements = [Fulfilled claimed] ∧
              text = formatEther balance) ∧
         (∀ balance claimed,
            omap balance_result settlements = [Fulfilled balance] →
            omap claimed_result settlements = [Fulfilled claimed] →
            snd execution = Normal (formatEther balance, claimed))).
  { intros Hex. split; [|exact Hex].
    destruct Hex as (settlements & -> & Hall & _).
    cbn. by apply settlements_not_submissions. }
  subst execution. unfold getBalanceAndClaimed. fold dummyToken.
  cbn [run app].
  destruct (first_wins w _).
  - destruct (respond w Z _ _) as [b|e] eqn:Hb; cbn [app].
    + destruct (respond w bool _ _) as [c|e] eqn:Hc; cbn [run app].
      * eexists [_; _]. repeat split; cbn; try done.
        -- intros text claimed [= <- <-]. eauto.
        -- by intros balance claimed [= <-] [= <-].
      * eexists [_; _]. repeat split; cbn; done.
    + eexists [_]. repeat split; cbn; done.
  - destruct (respond w bool _ _) as [c|e] eqn:Hc; cbn [app].
    + destruct (respond w Z _ _) as [b|e] eqn:Hb; cbn [run app].
      * eexists [_; _]. repeat split; cbn; try done.
        -- intros text claimed [= <- <-]. eauto.
        -- by intros balance claimed [= <-] [= <-].
      * eexists [_; _]. repeat split; cbn; done.
    + eexists [_]. repeat split; cbn; done.
Qed.

Lemma getBalanceAndClaimed_pair_witness :
  snd (run (calm_world (10 ^ 21) true 0 false)
         (getBalanceAndClaimed formatEther_example "0xb0b" 7) [])
  = Normal ("1000.0"%string, true).
Proof.
  destruct (getBalanceAndClaimed_pair formatEther_example
              (calm_world (10 ^ 21) true 0 false) "0xb0b" 7)
    as (_ & _ & settlements & Htrace & _ & _ & Hresult).
  injection Htrace as <-.
  apply (Hresult (10 ^ 21) true); reflexivity.
Defined.

(** *** [handleStake] *)

Section Stake.
Variable parseEther : string → completion Z.
Variable STAKING_ADDRESS : Account.
Variable account : Account.
Variable provider : nat.
Variable stake_input : string.
Variable tail : Z → Z → async unit.
Variable w : World.

Let signer := getSigner provider (Some account).
Let dummyToken := connect DUMMY_TOKEN signer.
Let staking := connect STAKING_CONTRACT signer.

End Stake.

End ClientSpec.

(** ** More about the contract *)

Module AtaTokenMore.
Import ERC20 AtaToken Effects Invariant Accounting MappingFacts AtaTokenFacts
  Examples MoreExamples.

Lemma successful_claims_snoc txs t :
  successful_claims (txs ++ [t]) =
    (successful_claims txs
     + if decide (tx_call t = call_claim ∧ tx_ok t = true) then 1 else 0)%nat.
Proof.
  unfold successful_claims. rewrite filter_app, length_app. f_equal.
  rewrite filter_cons, filter_nil. by case_decide.
Qed.

(** What one call does to [claimants]: a successful [claim] of a sender
    that was not written adds the sender, anything else adds nothing. *)
Lemma transact_claimants c msg_sender s o s' :
  invariant s →
  transact (dispatch c msg_sender) s = (o, s') →
  size (claimants s') =
    (size (claimants s)
     + if decide (c = call_claim ∧ succeeded o = true) then 1 else 0)%nat.
Proof.
  intros Hinv Ht. destruct (decide (c = call_claim)) as [->|Hc].
  - unfold transact in Ht. rewrite dispatch_claim, claim_eq in Ht.
    assert (o = Ok ret_none ∧ s' = claimed msg_sender s
              ∧ hasClaimed msg_sender s = false
            ∨ succeeded o = false ∧ s' = s) as [(-> & -> & Hcl)|[Ho ->]].
    { destruct (hasClaimed msg_sender s); [naive_solver|].
      repeat case_decide; naive_solver. }
    + pose proof (pending_not_written s msg_sender Hinv Hcl) as Hfresh.
      rewrite decide_True by done. cbn [claimed claimants].
      rewrite map_size_insert_None by done. lia.
    + rewrite Ho. rewrite decide_False by (by intros [_ [=]]). lia.
  - rewrite decide_False by (by intros [? _]).
    pose proof (dispatch_same_claims c msg_sender s Hc) as [Hcl _].
    unfold transact in Ht.
    destruct (dispatch c msg_sender s) as [[r|f] s1];
      injection Ht as <- <-; simpl in *; rewrite ?Hcl; lia.
Qed.

Lemma run_claimants s txs s' :
  invariant s → run s txs s' →
  size (claimants s') = (size (claimants s) + successful_claims txs)%nat.
Proof.
  intros Hinv Hrun.
  induction Hrun as [|s txs s' msg_sender c o s'' Hrun IH Hargs Ht].
  - unfold successful_claims. simpl. lia.
  - pose proof (run_invariant _ _ _ Hrun Hinv) as Hinv'.
    rewrite (transact_claimants _ _ _ _ _ Hinv' Ht), successful_claims_snoc.
    rewrite IH by done. simpl. lia.
Qed.

(** X1. The supply of a deployed token is the initial mint plus one
    reward for each successful [claim] made since. *)
Theorem supply_counts_claims (s : State) (txs : list Tx) :
  history s txs →
  totalSupply s
  = 1000000 * 10 ^ decimals
    + 1000 * 10 ^ decimals * Z.of_nat (successful_claims txs).
Proof.
  intros (deployer & s0 & Hd & Hrun).
  pose proof (deploy_invariant _ _ Hd) as Hinv0.
  pose proof (run_invariant _ _ _ Hrun Hinv0) as Hinv.
  pose proof (run_claimants _ _ _ Hinv0 Hrun) as Hsize.
  rewrite deploy_eq in Hd. case_decide; [done|]. injection Hd as <-.
  simpl in Hsize. rewrite map_size_empty in Hsize.
  unfold totalSupply.
  rewrite (inv_supply s Hinv), (inv_reward s Hinv), Hsize. done.
Qed.

Lemma supply_counts_claims_witness :
  totalSupply s_bob_paid
  = 1000000 * 10 ^ decimals + 1000 * 10 ^ decimals * 1.
Proof.
  apply (supply_counts_claims s_bob_paid
           (mkTx bob call_claim true :: later_calls)).
  exists alice, s_deployed. split; [reflexivity|].
  apply AtaTokenSpec.s_deployed_run.
Defined.

(** X2. [claim] touches the sender alone: whatever the result, the claim
    status of every other account, every allowance and the reward amount
    are what they were. *)
Theorem claim_frame (s : State) (msg_sender other : address)
  (o : outcome unit) (s' : State) :
  other ≠ msg_sender →
  transact (claim msg_sender) s = (o, s') →
  claim_status other s' = claim_status other s ∧
  hasClaimed other s' = hasClaimed other s ∧
  (∀ owner spender, allowance owner spender s' = allowance owner spender s) ∧
  rewardAmount s' = rewardAmount s.
Proof.
  intros Hne. rewrite transact_claim, claim_eq. intros Ht.
  assert (s' = s ∨ s' = claimed msg_sender s) as [->| ->].
  { destruct (hasClaimed msg_sender s); [left; congruence|].
    repeat case_decide; (left; congruence) || (right; congruence). }
  { done. }
  unfold hasClaimed. rewrite claim_status_claimed.
  by rewrite decide_False by done.
Qed.

Lemma claim_frame_witness :
  claim_status alice s_bob_claimed = claim_status alice s_deployed ∧
  hasClaimed alice s_bob_claimed = hasClaimed alice s_deployed ∧
  (∀ owner spender,
     allowance owner spender s_bob_claimed
     = allowance owner spender s_deployed) ∧
  rewardAmount s_bob_claimed = rewardAmount s_deployed.
Proof.
  apply (claim_frame s_deployed bob alice (Ok tt) s_bob_claimed).
  - intros [=].
  - reflexivity.
Defined.

(** X3. Right after a deployment nobody has claimed, the deployer
    included; the deployer holds the whole supply, nobody else holds a
    token or an allowance; and the deployer can still claim, which brings
    its balance to 1001000 * 10^decimals. *)
Theorem fresh_deployment (deployer : address) (s0 : State) :
  deploy deployer = Some s0 →
  (∀ a, hasClaimed a s0 = false) ∧
  balanceOf deployer s0 = totalSupply s0 ∧
  (∀ a, a ≠ deployer → balanceOf a s0 = 0) ∧
  (∀ owner spender, allowance owner spender s0 = 0) ∧
  ∃ s1, transact (claim deployer) s0 = (Ok tt, s1) ∧
        balanceOf deployer s1 = 1001000 * 10 ^ decimals.
Proof.
  intros Hd. pose proof (deploy_invariant _ _ Hd) as Hinv.
  rewrite deploy_eq in Hd. case_decide as Hnz; [done|]. injection Hd as <-.
  assert (∀ a, hasClaimed a (deployed deployer) = false) as Hnone by done.
  split; [done|]. split.
  { unfold balanceOf, deployed, mapping_get. simpl.
    by rewrite lookup_singleton_eq. }
  split.
  { intros a Hne. unfold balanceOf, deployed, mapping_get. simpl.
    by rewrite lookup_singleton_ne. }
  split; [done|].
  pose proof (invariant_claim_fits _ deployer Hinv (Hnone deployer)) as Hfit.
  assert (claim deployer (deployed deployer)
          = (Ok tt, claimed deployer (deployed deployer))) as Hok.
  { rewrite claim_eq, Hnone. by rewrite decide_False, decide_True by done. }
  exists (claimed deployer (deployed deployer)).
  rewrite transact_claim. split; [done|].
  apply (claim_ok_effect _ _ _ Hinv) in Hok as (_ & _ & -> & _).
  unfold balanceOf, deployed, mapping_get. simpl.
  rewrite lookup_singleton_eq. simpl. unfold decimals. lia.
Qed.

Lemma fresh_deployment_witness :
  (∀ a, hasClaimed a s_deployed = false) ∧
  balanceOf alice s_deployed = totalSupply s_deployed ∧
  (∀ a, a ≠ alice → balanceOf a s_deployed = 0) ∧
  (∀ owner spender, allowance owner spender s_deployed = 0) ∧
  ∃ s1, transact (claim alice) s_deployed = (Ok tt, s1) ∧
        balanceOf alice s1 = 1001000 * 10 ^ decimals.
Proof.
  apply (fresh_deployment alice s_deployed). reflexivity.
Defined.

(** X4. In a reachable state the supply and every balance are within
    [uint256], and [claim] never fails on arithmetic: it succeeds, or
    fails with "Already claimed", or, sent by [address(0)], is refused
    by the mint. *)
Theorem claim_never_overflows (s : State) (msg_sender : address) :
  reachable s →
  uint256_range (totalSupply s) ∧
  (∀ a, uint256_range (balanceOf a s)) ∧
  (fst (transact (claim msg_sender) s) = Ok tt
   ∨ fst (transact (claim msg_sender) s) = Reverted AlreadyClaimed
   ∨ msg_sender = address_zero ∧
     fst (transact (claim msg_sender) s)
     = Reverted (Error "ERC20: mint to the zero address")).
Proof.
  intros Hinv%reachable_invariant.
  pose proof (invariant_supply_bound s Hinv) as Hsup.
  assert (uint256_range (totalSupply s)) as Hrange.
  { unfold uint256_range, totalSupply, UINT256_MAX, decimals in *. lia. }
  split; [done|]. split.
  { intros a. pose proof (invariant_balance_bound s a Hinv).
    unfold uint256_range, totalSupply in *. lia. }
  rewrite transact_claim, claim_eq.
  destruct (hasClaimed msg_sender s) eqn:Hcl; [by right; left|].
  case_decide as Hz; [by right; right|].
  pose proof (invariant_claim_fits s msg_sender Hinv Hcl).
  rewrite decide_True by done. by left.
Qed.

Lemma claim_never_overflows_witness :
  uint256_range (totalSupply s_bob_paid) ∧
  (∀ a, uint256_range (balanceOf a s_bob_paid)) ∧
  (fst (transact (claim bob) s_bob_paid) = Ok tt
   ∨ fst (transact (claim bob) s_bob_paid) = Reverted AlreadyClaimed
   ∨ bob = address_zero ∧
     fst (transact (claim bob) s_bob_paid)
     = Reverted (Error "ERC20: mint to the zero address")).
Proof.
  apply (claim_never_overflows s_bob_paid bob).
  exists (mkTx bob call_claim true :: later_calls), alice, s_deployed.
  split; [reflexivity | apply AtaTokenSpec.s_deployed_run].
Defined.

(** In a state that satisfies the invariant, what [claim] does is decided
    by the status and the address of the sender. *)
Lemma transact_claim_cases s msg_sender :
  invariant s →
  transact (claim msg_sender) s =
    if hasClaimed msg_sender s then (Reverted AlreadyClaimed, s)
    else if decide (msg_sender = address_zero)
    then (Reverted (Error "ERC20: mint to the zero address"), s)
    else (Ok tt, claimed msg_sender s).
Proof.
  intros Hinv. rewrite transact_claim, claim_eq.
  destruct (hasClaimed msg_sender s) eqn:Hcl; [done|].
  case_decide; [done|].
  pose proof (invariant_claim_fits s msg_sender Hinv Hcl).
  by rewrite decide_True.
Qed.

Lemma hasClaimed_claimed_other a b s :
  a ≠ b → hasClaimed a (claimed b s) = hasClaimed a s.
Proof.
  intros Hne. unfold hasClaimed. rewrite claim_status_claimed.
  by rewrite decide_False by done.
Qed.

Lemma claimed_commute a b s :
  a ≠ b → claimed b (claimed a s) = claimed a (claimed b s).
Proof.
  intros Hne. unfold claimed, balanceOf. simpl.
  rewrite !mapping_get_insert, !decide_False by done.
  f_equal; by apply insert_insert_ne.
Qed.

Lemma two_calls_eq {A B} (first : exec A) (second : exec B) s :
  two_calls first second s =
    (fst (transact first s),
     fst (transact second (snd (transact first s))),
     snd (transact second (snd (transact first s)))).
Proof.
  unfold two_calls. destruct (transact first s) as [o1 s1]. simpl.
  by destruct (transact second s1) as [o2 s2].
Qed.

(** After a claim of [a], in a state with the invariant: the state has
    the invariant, and the status of any other account is unchanged. *)
Lemma after_claim s a :
  invariant s →
  snd (transact (claim a) s) = s
  ∨ snd (transact (claim a) s) = claimed a s ∧ hasClaimed a s = false
    ∧ a ≠ address_zero.
Proof.
  intros Hinv. rewrite transact_claim_cases by done.
  destruct (hasClaimed a s); [by left|]. case_decide; [by left|by right].
Qed.

Lemma after_claim_invariant s a :
  invariant s → invariant (snd (transact (claim a) s)).
Proof.
  intros Hinv. destruct (after_claim s a Hinv) as [->|(-> & Hcl & _)];
    [done | by apply invariant_claimed].
Qed.

Lemma after_claim_other s a b :
  invariant s → a ≠ b →
  hasClaimed b (snd (transact (claim a) s)) = hasClaimed b s.
Proof.
  intros Hinv Hne. destruct (after_claim s a Hinv) as [->|(-> & _)];
    [done | by apply hasClaimed_claimed_other].
Qed.

Lemma claim_outcome_independent s a b :
  invariant s → a ≠ b →
  fst (transact (claim b) (snd (transact (claim a) s)))
  = fst (transact (claim b) s).
Proof.
  intros Hinv Hne.
  rewrite (transact_claim_cases _ b (after_claim_invariant s a Hinv)).
  rewrite (transact_claim_cases s b Hinv).
  rewrite after_claim_other by done.
  destruct (hasClaimed b s); [done|]. by case_decide.
Qed.

Lemma claim_states_commute s a b :
  invariant s → a ≠ b →
  snd (transact (claim b) (snd (transact (claim a) s)))
  = snd (transact (claim a) (snd (transact (claim b) s))).
Proof.
  intros Hinv Hne.
  rewrite (transact_claim_cases _ b (after_claim_invariant s a Hinv)).
  rewrite (transact_claim_cases _ a (after_claim_invariant s b Hinv)).
  rewrite !after_claim_other by done.
  rewrite (transact_claim_cases s a Hinv), (transact_claim_cases s b Hinv).
  destruct (hasClaimed a s), (hasClaimed b s);
    repeat case_decide; simpl; try done.
  by apply claimed_commute.
Qed.

(** X5. The claims of two different accounts do not interfere: made in
    either order from a reachable state, the two calls have the same
    results and leave the same storage. *)
Theorem claims_commute (s : State) (a b : address)
  (oa ob : outcome unit) (s' : State) :
  reachable s → a ≠ b →
  two_calls (claim a) (claim b) s = (oa, ob, s') →
  two_calls (claim b) (claim a) s = (ob, oa, s').
Proof.
  intros Hinv%reachable_invariant Hne. rewrite !two_calls_eq.
  intros [= <- <- <-].
  rewrite (claim_outcome_independent s a b), (claim_outcome_independent s b a)
    by done.
  by rewrite (claim_states_commute s a b).
Qed.

Lemma claims_commute_witness :
  two_calls (claim bob) (claim alice) s_deployed
  = (Ok tt, Ok tt, snd (transact (claim bob) s_alice_claimed)).
Proof.
  apply (claims_commute s_deployed alice bob (Ok tt) (Ok tt)).
  - apply AtaTokenSpec.s_deployed_reachable.
  - intros [=].
  - reflexivity.
Defined.

(** X6. In every reachable state the balances add up to the supply, so
    that no balance is negative or above the supply. *)
Theorem balances_add_up (s : State) :
  reachable s →
  sum_values (_balances s) = totalSupply s ∧
  ∀ a, 0 ≤ balanceOf a s ≤ totalSupply s.
Proof.
  intros Hinv%reachable_invariant. split.
  - apply (inv_sum s Hinv).
  - intros a. by apply invariant_balance_bound.
Qed.

Lemma balances_add_up_witness :
  sum_values (_balances s_bob_paid) = totalSupply s_bob_paid ∧
  ∀ a, 0 ≤ balanceOf a s_bob_paid ≤ totalSupply s_bob_paid.
Proof.
  apply (balances_add_up s_bob_paid).
  exists (mkTx bob call_claim true :: later_calls), alice, s_deployed.
  split; [reflexivity | apply AtaTokenSpec.s_deployed_run].
Defined.
End AtaTokenMore.

(** ** The other handlers *)

Module DappSpec.
Import Js Client Dapp MoreExamples.

(** X7. [requestAccounts] returns [null] without asking anything when
    there is no wallet object. With a wallet object it asks once for the
    accounts: it returns the first account, [undefined] when the wallet
    has none, and throws the rejection when the wallet rejects. *)
Theorem requestAccounts_result (window : Web3.Window) (w : World) :
  let execution := play w (requestAccounts window) [] in
  (ToBoolean (Web3.ethereum window) = false →
     execution = ([], Normal null)) ∧
  (∀ wallet, Web3.ethereum window = object wallet →
     let request := eth_requestAccounts wallet in
     let r := answer w _ request [Asked request] in
     fst execution = [Asked request; Answered request r] ∧
     snd execution
     = match r with
       | Fulfilled (account :: _) => Normal (str account)
       | Fulfilled [] => Normal undefined
       | Rejected e => Throw e
       end).
Proof.
  intros execution. subst execution. unfold requestAccounts. split.
  - by intros ->.
  - intros wallet ->.
    cbn [ToBoolean negb play app and_then settle].
    by destruct (answer w _ _ _) as [[|account accounts]|e].
Qed.

Lemma requestAccounts_result_witness :
  play (calm_dapp [] 0 0 0 o123) (requestAccounts Examples.bare_window) []
  = ([], Normal null) ∧
  snd (play (calm_dapp [] 0 0 0 o123) (requestAccounts wallet_window) [])
  = Normal undefined ∧
  snd (play (calm_dapp ["0xb0b"; "0xa11ce"] 0 0 0 o123)
         (requestAccounts wallet_window) [])
  = Normal (str "0xb0b") ∧
  snd (play declining_dapp (requestAccounts wallet_window) [])
  = Throw (str "User rejected").
Proof.
  split; [|split; [|split]].
  - apply (requestAccounts_result Examples.bare_window
             (calm_dapp [] 0 0 0 o123)).
    reflexivity.
  - destruct (requestAccounts_result wallet_window (calm_dapp [] 0 0 0 o123))
      as [_ Hwallet].
    apply (Hwallet 1%nat eq_refl).
  - destruct (requestAccounts_result wallet_window
                (calm_dapp ["0xb0b"; "0xa11ce"] 0 0 0 o123))
      as [_ Hwallet].
    apply (Hwallet 1%nat eq_refl).
  - destruct (requestAccounts_result wallet_window declining_dapp)
      as [_ Hwallet].
    apply (Hwallet 1%nat eq_refl).
Defined.

(** X8. [addDummyTokenToMetaMask] never throws. Without a wallet object
    it returns [false] and asks nothing; with one it asks once to watch
    the token (type ERC20, the token address, symbol DT, 18 decimals) and
    returns the answer of the wallet, or [false] when the wallet
    rejects. *)
Theorem addDummyTokenToMetaMask_never_throws (DUMMY_TOKEN_ADDRESS : string)
  (window : Web3.Window) (w : World) :
  let execution :=
    play w (addDummyTokenToMetaMask DUMMY_TOKEN_ADDRESS window) [] in
  (∃ added, snd execution = Normal added) ∧
  (ToBoolean (Web3.ethereum window) = false →
     execution = ([], Normal false)) ∧
  (∀ wallet, Web3.ethereum window = object wallet →
     let request :=
       wallet_watchAsset wallet
         (mkAsset "ERC20" DUMMY_TOKEN_ADDRESS "DT" 18
            "https://ata-token.netlify.app/opn.png") in
     let r := answer w _ request [Asked request] in
     fst execution = [Asked request; Answered request r] ∧
     snd execution
     = Normal match r with Fulfilled added => added | Rejected _ => false end).
Proof.
  intros execution. subst execution. unfold addDummyTokenToMetaMask.
  split; [|split].
  - destruct (Web3.ethereum window) as [| |[|]|n| |t|wallet];
      cbn [ToBoolean negb play]; eauto.
    + destruct (negb (n =? 0)); cbn [negb play]; eauto.
    + destruct (negb (String.eqb t EmptyString)); cbn [negb play]; eauto.
    + cbn [app and_then settle].
      destruct (answer w _ _ _) as [added|e]; cbn; eauto.
  - by intros ->.
  - intros wallet ->. cbn [ToBoolean negb play app and_then settle].
    by destruct (answer w _ _ _) as [added|e].
Qed.

Lemma addDummyTokenToMetaMask_never_throws_witness :
  play declining_dapp (addDummyTokenToMetaMask "0xd7" Examples.bare_window) []
  = ([], Normal false) ∧
  snd (play declining_dapp (addDummyTokenToMetaMask "0xd7" wallet_window) [])
  = Normal false ∧
  snd (play (calm_dapp [] 0 0 0 o123)
         (addDummyTokenToMetaMask "0xd7" wallet_window) [])
  = Normal true.
Proof.
  split; [|split].
  - apply (addDummyTokenToMetaMask_never_throws "0xd7" Examples.bare_window
             declining_dapp).
    reflexivity.
  - destruct (addDummyTokenToMetaMask_never_throws "0xd7" wallet_window
                declining_dapp) as (_ & _ & Hwallet).
    apply (Hwallet 1%nat eq_refl).
  - destruct (addDummyTokenToMetaMask_never_throws "0xd7" wallet_window
                (calm_dapp [] 0 0 0 o123)) as (_ & _ & Hwallet).
    apply (Hwallet 1%nat eq_refl).
Defined.

Ltac settle_answers :=
  repeat (match goal with
          | |- context [answer ?w ?X ?op ?tr] =>
              destruct (answer w X op tr) as [?|?]
          end;
          cbn [and_then settle play app fst snd]).

Lemma answers_not_transactions (tr : list Event) :
  forallb (λ e, negb (is_asked e)) tr = true →
  existsb is_transaction tr = false.
Proof.
  induction tr as [|e tr IH]; [done|].
  destruct e; cbn; [done|]. exact IH.
Qed.

(** X9. [getStakingViews] sends its three reads before any of them
    settles and submits no transaction. In whichever of the six orders
    they settle, when all are fulfilled the object returned has the
    staked amount, the reward and the total, each converted by
    [formatEther], in the fields of those names. *)
Theorem getStakingViews_fields (formatEther : Z → string) (w : World)
  (account : Account) (provider : nat) :
  let staking := connect STAKING_CONTRACT (getSigner provider (Some account)) in
  let execution := play w (getStakingViews formatEther account provider) [] in
  existsb is_transaction (fst execution) = false ∧
  ∃ settlements,
    fst execution
    = [Asked (stakedOf staking account); Asked (rewardOf staking account);
       Asked (totalStaked staking)] ++ settlements ∧
    forallb (λ e, negb (is_asked e)) settlements = true ∧
    (∀ views, snd execution = Normal views →
       ∃ a b c,
         omap staked_result settlements = [Fulfilled a] ∧
         omap reward_result settlements = [Fulfilled b] ∧
         omap totalStaked_result settlements = [Fulfilled c] ∧
         views = mkStakingViews (formatEther a) (formatEther b)
                   (formatEther c)) ∧
    (∀ a b c,
       omap staked_result settlements = [Fulfilled a] →
       omap reward_result settlements = [Fulfilled b] →
       omap totalStaked_result settlements = [Fulfilled c] →
       snd execution
       = Normal (mkStakingViews (formatEther a) (formatEther b)
                   (formatEther c))).
Proof.
  intros staking execution.
  cut (∃ settlements,
         fst execution
         = [Asked (stakedOf staking account);
            Asked (rewardOf staking account);
            Asked (totalStaked staking)] ++ settlements ∧
         forallb (λ e, negb (is_asked e)) settlements = true ∧
         (∀ views, snd execution = Normal views →
            ∃ a b c,
              omap staked_result settlements = [Fulfilled a] ∧
              omap reward_result settlements = [Fulfilled b] ∧
              omap totalStaked_result settlements = [Fulfilled c] ∧
              views = mkStakingViews (formatEther a) (formatEther b)
                        (formatEther c)) ∧
         (∀ a b c,
            omap staked_result settlements = [Fulfilled a] →
            omap reward_result settlements = [Fulfilled b] →
            omap totalStaked_result settlements = [Fulfilled c] →
            snd execution
            = Normal (mkStakingViews (formatEther a) (formatEther b)
                        (formatEther c)))).
  { intros Hex. split; [|exact Hex].
    destruct Hex as (settlements & -> & Hall & _).
    cbn. by apply answers_not_transactions. }
  subst execution.
  unfold getStakingViews. fold staking. cbn [play app].
  destruct (order w _); cbn [and_then settle play app]; settle_answers;
    eexists; (split; [reflexivity|]); cbn;
    (split; [done|]); split;
    try (intros views [= <-]; eauto 10);
    try (intros a b c; congruence);
    try done.
Qed.

Lemma getStakingViews_fields_witness :
  snd (play (calm_dapp [] 1 2 3 o312)
         (getStakingViews formatEther_three "0xb0b" 7) [])
  = Normal (mkStakingViews "a" "b" "c").
Proof.
  destruct (getStakingViews_fields formatEther_three
              (calm_dapp [] 1 2 3 o312) "0xb0b" 7)
    as (_ & settlements & Htrace & _ & _ & Hfields).
  injection Htrace as <-.
  apply (Hfields 1 2 3); reflexivity.
Defined.

(** X10. The two handlers that only send a transaction, [claim] of the
    component [DummyToken] and [handleClaimReward], submit exactly one
    transaction each (the reward claim with a gas limit of 1000000),
    return normally exactly when the trace ends with its confirmation,
    and throw exactly the rejection the trace ends with: nothing is sent
    after a rejection. *)
Theorem transaction_handlers_confirm (w : World) (account : Account)
  (provider : nat) :
  let claim_tx := claim (connect DUMMY_TOKEN (getSigner provider None)) in
  let reward_tx :=
    claimReward (connect STAKING_CONTRACT (getSigner provider (Some account)))
      1000000 in
  let claiming := play w (DummyToken.claim provider) [] in
  let rewarding := play w (handleClaimReward account provider) [] in
  (filter (λ e, is_transaction e = true) (fst claiming) = [Asked claim_tx] ∧
   (snd claiming = Normal tt ↔ ends_confirmed (fst claiming) = true) ∧
   (∀ e, snd claiming = Throw e ↔ ends_rejected (fst claiming) = Some e)) ∧
  (filter (λ e, is_transaction e = true) (fst rewarding) = [Asked reward_tx] ∧
   (snd rewarding = Normal tt ↔ ends_confirmed (fst rewarding) = true) ∧
   (∀ e, snd rewarding = Throw e ↔ ends_rejected (fst rewarding) = Some e)).
Proof.
  intros claim_tx reward_tx claiming rewarding.
  subst claiming rewarding.
  unfold DummyToken.claim, handleClaimReward. fold claim_tx reward_tx.
  split.
  - cbn [play app and_then settle]. settle_answers;
      (split; [reflexivity|]); cbn; (split; [done|]);
      intros e'; split; congruence.
  - cbn [play app and_then settle]. settle_answers;
      (split; [reflexivity|]); cbn; (split; [done|]);
      intros e'; split; congruence.
Qed.

Lemma transaction_handlers_confirm_witness :
  snd (play (calm_dapp [] 0 0 0 o123) (DummyToken.claim 7) []) = Normal tt ∧
  snd (play declining_dapp (handleClaimReward "0xb0b" 7) [])
  = Throw (str "User rejected").
Proof.
  split.
  - destruct (transaction_handlers_confirm (calm_dapp [] 0 0 0 o123)
                "0xb0b" 7) as [(_ & Hconfirmed & _) _].
    apply Hconfirmed. reflexivity.
  - destruct (transaction_handlers_confirm declining_dapp "0xb0b" 7)
      as [_ (_ & _ & Hrejected)].
    apply Hrejected. reflexivity.
Defined.
End DappSpec.

(** ** [handleStake]: failures *)

Module StakeFailures.
Import Js Client StakeTrace Examples MoreExamples.

Ltac settle_responses :=
  repeat (match goal with
          | |- context [respond ?w ?X ?q ?tr] =>
              destruct (respond w X q tr) as [?|?]
          end;
          cbn [run app fst snd]).

(** X11. The failures of the two listings of [handleStake]. The listing
    with the allowance check, whatever its elided end does: with a text
    that does not parse it throws the error of the parser and sends
    nothing; when the fetch of the allowance is rejected it throws that
    rejection with nothing sent but the fetch. As it is written, with
    nothing at its end, it sends no stake transaction and at most one
    approval, throws exactly the rejection its trace ends with, and
    returns normally exactly when its trace ends with no rejection. The
    first listing: with a text that does not parse it sends nothing;
    otherwise it sends one stake transaction, for the parsed amount with
    a gas limit of 1000000, and no approval, returns normally exactly
    when its trace ends with a confirmation, and throws exactly the
    rejection its trace ends with. *)
Theorem handleStake_failures (parseEther : string → completion Z)
  (STAKING_ADDRESS account : Account) (provider : nat)
  (stake_input : string) (tail : Z → Z → async unit) (w : World) :
  let listing :=
    handleStake parseEther STAKING_ADDRESS account provider stake_input in
  let written := run w (listing (λ _ _, Return tt)) [] in
  let first_listing :=
    run w (submitStake parseEther account provider stake_input) [] in
  let fetch :=
    allowance (connect DUMMY_TOKEN (getSigner provider (Some account)))
      account STAKING_ADDRESS in
  (∀ e, parseEther stake_input = Throw e →
     run w (listing tail) [] = ([], Throw e) ∧
     first_listing = ([], Throw e)) ∧
  (∀ amount, parseEther stake_input = Normal amount →
     (∀ e, respond w Z fetch [Sent fetch] = Rejected e →
        run w (listing tail) []
        = ([Sent fetch; Settled fetch (Rejected e)], Throw e)) ∧
     (stakes (fst written) = [] ∧
      (length (approvals (fst written)) ≤ 1)%nat ∧
      (snd written = Normal tt ↔ ends_rejected (fst written) = None) ∧
      (∀ e, snd written = Throw e ↔ ends_rejected (fst written) = Some e)) ∧
     (stakes (fst first_listing) = [(amount, 1000000)] ∧
      approvals (fst first_listing) = [] ∧
      (snd first_listing = Normal tt ↔
       ends_confirmed (fst first_listing) = true) ∧
      (∀ e, snd first_listing = Throw e ↔
            ends_rejected (fst first_listing) = Some e))).
Proof.
  intros listing written first_listing fetch.
  subst listing written first_listing.
  unfold handleStake, submitStake. fold fetch. split.
  - by intros e ->.
  - intros amount ->. split; [|split].
    + intros e He. cbn [run app]. by rewrite He.
    + cbn [run app].
      destruct (respond w Z fetch _) as [allowed|e]; cbn [run app fst snd];
        [destruct (allowed <? amount); cbn [run app fst snd];
         settle_responses|];
        cbn; repeat split; try lia; try congruence.
    + cbn [run app]. settle_responses;
        cbn; repeat split; try congruence.
Qed.

Lemma handleStake_failures_witness :
  run declining_world
    (handleStake (λ _, Throw (str "invalid decimal value")) "0x57a" "0xb0b" 7
       "abc" (λ _ _, Return tt)) []
  = ([], Throw (str "invalid decimal value")) ∧
  snd (run (calm_world 0 false 0 true)
         (handleStake parseEther_example "0x57a" "0xb0b" 7 "1.0"
            (λ _ _, Return tt)) [])
  = Normal tt ∧
  snd (run (calm_world 0 false 0 true)
         (submitStake parseEther_example "0xb0b" 7 "1.0") [])
  = Normal tt ∧
  snd (run declining_world
         (submitStake parseEther_example "0xb0b" 7 "1.0") [])
  = Throw (str "User rejected").
Proof.
  split; [|split; [|split]].
  - apply (handleStake_failures (λ _, Throw (str "invalid decimal value"))
             "0x57a" "0xb0b" 7 "abc" (λ _ _, Return tt) declining_world).
    reflexivity.
  - destruct (handleStake_failures parseEther_example "0x57a" "0xb0b" 7 "1.0"
                (λ _ _, Return tt) (calm_world 0 false 0 true))
      as [_ Hparsed].
    destruct (Hparsed (10 ^ 18) eq_refl) as (_ & (_ & _ & Hnormal & _) & _).
    apply Hnormal. reflexivity.
  - destruct (handleStake_failures parseEther_example "0x57a" "0xb0b" 7 "1.0"
                (λ _ _, Return tt) (calm_world 0 false 0 true))
      as [_ Hparsed].
    destruct (Hparsed (10 ^ 18) eq_refl) as (_ & _ & (_ & _ & Hnormal & _)).
    apply Hnormal. reflexivity.
  - destruct (handleStake_failures parseEther_example "0x57a" "0xb0b" 7 "1.0"
                (λ _ _, Return tt) declining_world) as [_ Hparsed].
    destruct (Hparsed (10 ^ 18) eq_refl) as (_ & _ & (_ & _ & _ & Hthrow)).
    apply Hthrow. reflexivity.
Defined.
End StakeFailures.
